(** * AIMeetsMortgage: the glue code of [server.js]

    A shallow embedding of the server's own logic: the fence stripper,
    the two prompt templates, the artifact naming and contract-name
    rewrite, the migration template, and the callback that scrapes the
    deployed address from the toolchain's output.  The JavaScript
    runtime pieces the code calls ([String.prototype.replace], [match],
    [trim], [JSON.stringify], [path.join], [fs.writeFileSync]) are
    modelled next to the code that uses them. *)

From Stdlib Require Import ZArith NArith List Ascii String Lia Bool.
From stdpp Require Import prelude strings pretty gmap.

Set Default Proof Using "Type".

(* ================================================================= *)
(** * JavaScript strings *)

(** A JavaScript string is a sequence of UTF-16 code units. *)
Abbreviation code_unit := N.
Abbreviation jsstring := (list N).

(** String literals of the source, all of them ASCII. *)
Fixpoint lit (s : string) : jsstring :=
  match s with
  | EmptyString => []
  | String a s' => N_of_ascii a :: lit s'
  end.
Arguments lit _%_string.

Definition between (lo hi c : N) : bool := N.leb lo c && N.leb c hi.

(** [\w] without the [u] and [i] flags: [A-Za-z0-9_]. *)
Definition is_word (c : code_unit) : bool :=
  between 65 90 c || between 97 122 c || between 48 57 c || N.eqb c 95.

(** [\s], which is also what [trim] removes: WhiteSpace and
    LineTerminator of ECMA-262. *)
Definition is_space (c : code_unit) : bool :=
  between 9 13 c || N.eqb c 32 || N.eqb c 160 || N.eqb c 5760
  || between 8192 8202 c || N.eqb c 8232 || N.eqb c 8233
  || N.eqb c 8239 || N.eqb c 8287 || N.eqb c 12288 || N.eqb c 65279.

(** [[a-fA-F0-9]]. *)
Definition is_hex (c : code_unit) : bool :=
  between 97 102 c || between 65 70 c || between 48 57 c.

Definition is_digit (c : code_unit) : bool := between 48 57 c.

Fixpoint drop_while {A} (p : A -> bool) (l : list A) : list A :=
  match l with
  | [] => []
  | x :: t => if p x then drop_while p t else l
  end.

Fixpoint take_while {A} (p : A -> bool) (l : list A) : list A :=
  match l with
  | [] => []
  | x :: t => if p x then x :: take_while p t else []
  end.

(** [String.prototype.trim]. *)
Definition trimStart (s : jsstring) : jsstring := drop_while is_space s.
Definition trimEnd (s : jsstring) : jsstring := rev (drop_while is_space (rev s)).
Definition trim (s : jsstring) : jsstring := trimEnd (trimStart s).

(** [s.startsWith(p)], returning what follows the prefix. *)
Fixpoint strip_prefix (p s : jsstring) : option jsstring :=
  match p with
  | [] => Some s
  | a :: p' =>
      match s with
      | [] => None
      | b :: s' => if N.eqb a b then strip_prefix p' s' else None
      end
  end.

(** [s.includes(sub)]. *)
Fixpoint includes (sub s : jsstring) : bool :=
  match strip_prefix sub s with
  | Some _ => true
  | None => match s with [] => false | _ :: t => includes sub t end
  end.

(** Number-to-string of an integral Number below 2^53 in magnitude,
    which is what [Date.now()] and the loan amount are. *)
Definition number_to_string (n : Z) : jsstring := lit (pretty n).

(* ================================================================= *)
(** * Regular expressions *)

(** The fragment of the pattern language the three patterns of the
    source are written in. *)
Inductive regex : Type :=
| Eps
| Chr (c : code_unit)
| Cls (p : code_unit -> bool)
| Cat (r1 r2 : regex)
| PlusCls (p : code_unit -> bool)
| Opt (r : regex)
| Grp (i : nat) (r : regex)
| WordB.

(** A literal run of pattern characters. *)
Definition lit_re (s : jsstring) : regex :=
  foldr (fun c r => Cat (Chr c) r) Eps s.

(** The matcher state of ECMA-262: the input split at the current end
    index ([consumed] is reversed, nearest code unit first) and the
    captures; index 0 of the captures is filled in by [exec]. *)
Record mstate : Type := MState {
  consumed : jsstring;
  remaining : jsstring;
  captures : list (option jsstring)
}.

Definition cont := mstate -> option mstate.

Definition advance (x : mstate) (c : code_unit) (t : jsstring) : mstate :=
  MState (c :: consumed x) t (captures x).

Definition word_at (o : option code_unit) : bool :=
  match o with Some c => is_word c | None => false end.

(** Greedy [p*]: take one more code unit first, fall back to the
    continuation at the current position. *)
Fixpoint star_cls (p : code_unit -> bool) (x : mstate) (s : jsstring)
    (k : cont) : option mstate :=
  match s with
  | c :: t =>
      if p c then
        match star_cls p (advance x c t) t k with
        | Some y => Some y
        | None => k x
        end
      else k x
  | [] => k x
  end.

(** The backtracking matcher, in continuation-passing style as the
    language specification gives it. *)
Fixpoint matcher (r : regex) (x : mstate) (k : cont) : option mstate :=
  match r with
  | Eps => k x
  | Chr c =>
      match remaining x with
      | d :: t => if N.eqb c d then k (advance x d t) else None
      | [] => None
      end
  | Cls p =>
      match remaining x with
      | d :: t => if p d then k (advance x d t) else None
      | [] => None
      end
  | Cat r1 r2 => matcher r1 x (fun y => matcher r2 y k)
  | PlusCls p =>
      match remaining x with
      | d :: t => if p d then star_cls p (advance x d t) t k else None
      | [] => None
      end
  | Opt r' =>
      match matcher r' x (fun y =>
              if Nat.eqb (length (remaining y)) (length (remaining x))
              then None else k y) with
      | Some y => Some y
      | None => k x
      end
  | Grp i r' =>
      matcher r' x (fun y =>
        let n := length (remaining x) - length (remaining y) in
        k (MState (consumed y) (remaining y)
                  (<[i := Some (take n (remaining x))]> (captures y))))
  | WordB =>
      if xorb (word_at (head (consumed x))) (word_at (head (remaining x)))
      then k x else None
  end.

(** One attempt of the pattern at the current index; [ngroups] is the
    number of capturing groups. *)
Definition exec_at (re : regex) (ngroups : nat) (before s : jsstring)
    : option mstate :=
  matcher re (MState before s (replicate (S ngroups) None)) Some.

(** The result array of a successful match: the matched text at index
    0, then the captures. *)
Definition match_array (s : jsstring) (y : mstate) : list (option jsstring) :=
  <[0 := Some (take (length s - length (remaining y)) s)]> (captures y).

(** [RegExpBuiltinExec] for a pattern without the sticky flag: the
    first index at or after the current one where an attempt succeeds. *)
Fixpoint search (re : regex) (ngroups : nat) (before s : jsstring)
    : option (list (option jsstring)) :=
  match exec_at re ngroups before s with
  | Some y => Some (match_array s y)
  | None =>
      match s with
      | [] => None
      | c :: t => search re ngroups (c :: before) t
      end
  end.

(** [str.match(re)] for a pattern without the [g] flag. *)
Definition js_match (re : regex) (ngroups : nat) (s : jsstring)
    : option (list (option jsstring)) :=
  search re ngroups [] s.

(** [GetSubstitution]: the [$]-patterns of a replacement string.  None
    of the patterns of this program has named groups, so [$<] stays
    literal. *)
Definition digit_val (c : code_unit) : nat := N.to_nat (c - 48).

Definition capture_text (caps : list (option jsstring)) (i : nat) : jsstring :=
  match caps !! i with
  | Some (Some s) => s
  | _ => []
  end.

Fixpoint get_substitution (matched before after : jsstring)
    (caps : list (option jsstring)) (tmpl : jsstring) : jsstring :=
  match tmpl with
  | [] => []
  | c :: t =>
      if negb (N.eqb c 36) then
        c :: get_substitution matched before after caps t
      else
        match t with
        | [] => [c]
        | d :: t' =>
            if N.eqb d 36 then
              36%N :: get_substitution matched before after caps t'
            else if N.eqb d 38 then
              matched ++ get_substitution matched before after caps t'
            else if N.eqb d 96 then
              before ++ get_substitution matched before after caps t'
            else if N.eqb d 39 then
              after ++ get_substitution matched before after caps t'
            else if is_digit d then
              let m := length caps - 1 in
              let one := digit_val d in
              match t' with
              | e :: t'' =>
                  let two := 10 * one + digit_val e in
                  if is_digit e && Nat.leb 1 two && Nat.leb two m then
                    capture_text caps two
                      ++ get_substitution matched before after caps t''
                  else if Nat.leb 1 one && Nat.leb one m then
                    capture_text caps one
                      ++ get_substitution matched before after caps t'
                  else c :: get_substitution matched before after caps t
              | [] =>
                  if Nat.leb 1 one && Nat.leb one m then capture_text caps one
                  else c :: get_substitution matched before after caps t
              end
            else c :: get_substitution matched before after caps t
        end
  end.

(** [str.replace(re, tmpl)] for a pattern with the [g] flag.  The scan
    runs over the original string: [before] is the reversed text to the
    left of the current index, [inside] counts the code units of the
    last match still to be passed over.  After an empty match the index
    moves on by one code unit. *)
Fixpoint replace_from (re : regex) (ngroups : nat) (tmpl : jsstring)
    (before s : jsstring) (inside : nat) : jsstring :=
  match s with
  | [] =>
      match inside with
      | 0 =>
          match exec_at re ngroups before [] with
          | Some y =>
              get_substitution [] (rev before) [] (match_array [] y) tmpl
          | None => []
          end
      | S _ => []
      end
  | c :: t =>
      match inside with
      | S n => replace_from re ngroups tmpl (c :: before) t n
      | 0 =>
          match exec_at re ngroups before s with
          | Some y =>
              let len := length s - length (remaining y) in
              get_substitution (take len s) (rev before) (remaining y)
                               (match_array s y) tmpl
              ++ match len with
                 | 0 => c :: replace_from re ngroups tmpl (c :: before) t 0
                 | S n => replace_from re ngroups tmpl (c :: before) t n
                 end
          | None => c :: replace_from re ngroups tmpl (c :: before) t 0
          end
      end
  end.

Definition replace_all (re : regex) (ngroups : nat) (tmpl s : jsstring)
    : jsstring :=
  replace_from re ngroups tmpl [] s 0.

(* ================================================================= *)
(** * JSON values and [JSON.stringify] *)

#[local] Unset Elimination Schemes.
Inductive json : Type :=
| JStr (s : jsstring)
| JNum (n : Z)
| JObj (fields : list (jsstring * json)).
#[local] Set Elimination Schemes.

Definition hex_digit (n : N) : code_unit :=
  if N.ltb n 10 then (48 + n)%N else (87 + n)%N.

Definition unicode_escape (c : code_unit) : jsstring :=
  [92; 117; hex_digit (c / 4096 mod 16); hex_digit (c / 256 mod 16);
   hex_digit (c / 16 mod 16); hex_digit (c mod 16)]%N.

Definition is_high_surrogate (c : code_unit) : bool := between 55296 56319 c.
Definition is_low_surrogate (c : code_unit) : bool := between 56320 57343 c.

(** [QuoteJSONString], without the enclosing quotes. *)
Fixpoint quote_body (s : jsstring) : jsstring :=
  match s with
  | [] => []
  | c :: t =>
      if N.eqb c 8 then [92; 98]%N ++ quote_body t
      else if N.eqb c 9 then [92; 116]%N ++ quote_body t
      else if N.eqb c 10 then [92; 110]%N ++ quote_body t
      else if N.eqb c 12 then [92; 102]%N ++ quote_body t
      else if N.eqb c 13 then [92; 114]%N ++ quote_body t
      else if N.eqb c 34 then [92; 34]%N ++ quote_body t
      else if N.eqb c 92 then [92; 92]%N ++ quote_body t
      else if N.ltb c 32 then unicode_escape c ++ quote_body t
      else if is_high_surrogate c then
        match t with
        | d :: t' =>
            if is_low_surrogate d then c :: d :: quote_body t'
            else unicode_escape c ++ quote_body t
        | [] => unicode_escape c
        end
      else if is_low_surrogate c then unicode_escape c ++ quote_body t
      else c :: quote_body t
  end.

Definition dq : jsstring := [34%N].
Definition nl : jsstring := [10%N].

Definition quote_json (s : jsstring) : jsstring := dq ++ quote_body s ++ dq.

(** [JSON.stringify] without indentation. *)
Fixpoint stringify (v : json) : jsstring :=
  match v with
  | JStr s => quote_json s
  | JNum n => number_to_string n
  | JObj fields =>
      lit "{"
      ++ (fix members (l : list (jsstring * json)) : jsstring :=
            match l with
            | [] => []
            | [(k, x)] => quote_json k ++ lit ":" ++ stringify x
            | (k, x) :: rest =>
                quote_json k ++ lit ":" ++ stringify x ++ lit "," ++ members rest
            end) fields
      ++ lit "}"
  end.

(* ================================================================= *)
(** * [path.join] (POSIX flavour) *)

Definition slash : code_unit := 47%N.

(** [s.split("/")]. *)
Fixpoint split_slash (s : jsstring) : list jsstring :=
  match s with
  | [] => [[]]
  | c :: t =>
      if N.eqb c slash then [] :: split_slash t
      else
        match split_slash t with
        | seg :: segs => (c :: seg) :: segs
        | [] => [[c]]
        end
  end.

Definition jsstring_eqb (a b : jsstring) : bool := bool_decide (a = b).

(** One segment of [normalizeString]; the stack holds the segments kept
    so far, last one first. *)
Definition norm_step (allowAboveRoot : bool) (stack : list jsstring)
    (seg : jsstring) : list jsstring :=
  if jsstring_eqb seg [] || jsstring_eqb seg (lit ".") then stack
  else if jsstring_eqb seg (lit "..") then
    match stack with
    | top :: below =>
        if jsstring_eqb top (lit "..") then
          if allowAboveRoot then seg :: stack else stack
        else below
    | [] => if allowAboveRoot then [seg] else []
    end
  else seg :: stack.

Fixpoint join_slash (segs : list jsstring) : jsstring :=
  match segs with
  | [] => []
  | [seg] => seg
  | seg :: rest => seg ++ slash :: join_slash rest
  end.

Definition normalize (p : jsstring) : jsstring :=
  match p with
  | [] => lit "."
  | c :: _ =>
      let isAbsolute := N.eqb c slash in
      let trailingSeparator :=
        match last p with Some d => N.eqb d slash | None => false end in
      let body :=
        join_slash (rev (fold_left (norm_step (negb isAbsolute))
                                   (split_slash p) [])) in
      match body with
      | [] =>
          if isAbsolute then lit "/"
          else if trailingSeparator then lit "./" else lit "."
      | _ =>
          (if isAbsolute then lit "/" else [])
          ++ body ++ (if trailingSeparator then lit "/" else [])
      end
  end.

Definition path_join (args : list jsstring) : jsstring :=
  match filter (fun a => a <> []) args with
  | [] => lit "."
  | parts => normalize (join_slash parts)
  end.

(* ================================================================= *)
(** * The server's world: files, directories, console *)

Inductive stream : Type := StdOut | StdErr.

Record world : Type := World {
  files : gmap jsstring jsstring;
  dirs : gset jsstring;
  console : list (stream * list jsstring)
}.

(** Handlers run in a state monad over the world; [inr msg] is a
    thrown [Error] with that message. *)
Definition M (A : Type) : Type := world -> (A + jsstring) * world.

Definition ret {A} (a : A) : M A := fun w => (inl a, w).

Definition throw {A} (msg : jsstring) : M A := fun w => (inr msg, w).

Definition bind {A B} (m : M A) (k : A -> M B) : M B :=
  fun w =>
    match m w with
    | (inl a, w') => k a w'
    | (inr msg, w') => (inr msg, w')
    end.

Definition try_catch {A} (m : M A) (handler : jsstring -> M A) : M A :=
  fun w =>
    match m w with
    | (inl a, w') => (inl a, w')
    | (inr msg, w') => handler msg w'
    end.

Notation "'let*' x ':=' m 'in' k" := (bind m (fun x => k))
  (at level 10, x name, m at level 100, k at level 200).
Notation "m ';;' k" := (bind m (fun _ => k))
  (at level 100, k at level 200, right associativity).

Definition when (b : bool) (m : M unit) : M unit := if b then m else ret tt.

Definition console_log (args : list jsstring) : M unit :=
  fun w => (inl tt, World (files w) (dirs w) (console w ++ [(StdOut, args)])).

Definition console_error (args : list jsstring) : M unit :=
  fun w => (inl tt, World (files w) (dirs w) (console w ++ [(StdErr, args)])).

(** [fs.existsSync], [fs.mkdirSync(_, { recursive: true })] and
    [fs.writeFileSync].  Refusals of the operating system are not
    modelled: every call succeeds.  A file holds the text written to
    it; its encoding as UTF-8 is not modelled. *)
Definition existsSync (p : jsstring) : M bool :=
  fun w => (inl (bool_decide (p ∈ dirs w) || bool_decide (is_Some (files w !! p))), w).

Definition mkdirSync (p : jsstring) : M unit :=
  fun w => (inl tt, World (files w) ({[p]} ∪ dirs w) (console w)).

Definition writeFileSync (p data : jsstring) : M unit :=
  fun w => (inl tt, World (<[p := data]> (files w)) (dirs w) (console w)).

(** What a handler answers: [res.status(n).json(body)]; [res.json]
    alone answers with status 200. *)
Record response : Type := Response { status : nat; body : json }.

(* ================================================================= *)
(** * [server.js] *)

Record Contact : Type := { phone : jsstring; email : jsstring; address : jsstring }.
Record Borrower : Type := { name : jsstring; contact : Contact }.
Record LoanDetails : Type := {
  loanAmount : Z;
  loanType : jsstring;
  desiredTimeline : jsstring
}.
Record LoanRecord : Type := {
  contractName : jsstring;
  borrower : Borrower;
  loanDetails : LoanDetails
}.

(** Hardcoded Loan Data *)
Definition loanData : LoanRecord := {|
  contractName := lit "MortgageLoan";
  borrower := {|
    name := lit "YJ";
    contact := {|
      phone := lit "+1-555-123-4567";
      email := lit "manny@example.com";
      address := lit "123 Elm Street, Springfield, IL, 62704"
    |}
  |};
  loanDetails := {|
    loanAmount := 200000;
    loanType := lit "Home Loan";
    desiredTimeline := lit "2025-06-30"
  |}
|}.

(** The borrower object as [JSON.stringify] sees it: own properties in
    insertion order. *)
Definition borrower_json (b : Borrower) : json :=
  JObj [(lit "name", JStr (name b));
        (lit "contact",
         JObj [(lit "phone", JStr (phone (contact b)));
               (lit "email", JStr (email (contact b)));
               (lit "address", JStr (address (contact b)))])].

(** [/```(\w+)?/g], [/```/g]. *)
Definition fence_open_re : regex :=
  Cat (lit_re (lit "```")) (Opt (Grp 1 (PlusCls is_word))).
Definition fence_bare_re : regex := lit_re (lit "```").

Definition stripMarkdownFences (text : jsstring) : jsstring :=
  trim (replace_all fence_bare_re 0 []
          (replace_all fence_open_re 1 [] text)).

(** The completion client.  The remote endpoint is a function of the
    prompt: the text of the first choice, or the message of the error
    the request ended with. *)
Definition endpoint : Type := jsstring -> jsstring + jsstring.

Definition createChatCompletion (openai : endpoint) (content : jsstring)
    : M jsstring :=
  match openai content with
  | inl text => ret text
  | inr msg => throw msg
  end.

Definition error_body (msg : jsstring) : json := JObj [(lit "error", JStr msg)].

Module GeneratePrompt.

Definition prompt (loanData : LoanRecord) : jsstring :=
  nl
  ++ lit "      Generate a Solidity smart contract named " ++ dq
  ++ contractName loanData ++ dq ++ lit " with:" ++ nl
  ++ lit "      - Borrower details: "
  ++ stringify (borrower_json (borrower loanData)) ++ nl
  ++ lit "      - Loan amount: "
  ++ number_to_string (loanAmount (loanDetails loanData)) ++ nl
  ++ lit "      - Loan type: " ++ loanType (loanDetails loanData) ++ nl
  ++ lit "      - Timeline: " ++ desiredTimeline (loanDetails loanData) ++ nl
  ++ lit "      Include:" ++ nl
  ++ lit "      - Borrower physicalAddress (mention address as physicalAddress) storage" ++ nl
  ++ lit "      - Loan amount and type storage" ++ nl
  ++ lit "      - Timeline validation" ++ nl
  ++ lit "      - Loan status management (Pending, Approved, Rejected, Repaid)" ++ nl
  ++ lit "      - Admin controls" ++ nl
  ++ lit "      - SPDX-License-Identifier: MIT" ++ nl
  ++ lit "      - pragma solidity ^0.8.0 (MUST HAVE)" ++ nl
  ++ lit "    ".

Definition handler (loanData : LoanRecord) (openai : endpoint) : M response :=
  try_catch
    (let* content := createChatCompletion openai (prompt loanData) in
     let generatedCode := stripMarkdownFences (trim content) in
     ret (Response 200
            (JObj [(lit "prompt", JStr (prompt loanData));
                   (lit "generatedCode", JStr generatedCode)])))
    (fun msg =>
       console_error [lit "Error:"; msg];;
       ret (Response 500 (error_body msg))).

End GeneratePrompt.

(** How the child process of [exec] ended, and what it printed. *)
Inductive proc_end : Type :=
| Exited (code : N)
| Killed
| SpawnFailed.

Record exec_result : Type := ExecResult {
  outcome : proc_end;
  stdout : jsstring;
  stderr : jsstring
}.

(** The [err] argument of the callback: [null] exactly when the child
    exited with code 0. *)
Definition exec_err (r : exec_result) : option proc_end :=
  match outcome r with
  | Exited 0 => None
  | o => Some o
  end.

(** JavaScript's [!v] for a value that is a string or [null]. *)
Definition falsy (v : option jsstring) : bool :=
  match v with
  | None | Some [] => true
  | Some (_ :: _) => false
  end.

Module AutoDeploy.

Definition prompt (loanData : LoanRecord) : jsstring :=
  nl
  ++ lit "      You are a highly skilled Solidity dev." ++ nl
  ++ lit "      Generate a complete Solidity contract named " ++ dq
  ++ lit "CustomMortgageLoan" ++ dq ++ lit " for a loan with:" ++ nl
  ++ lit "      - Borrower details: "
  ++ stringify (borrower_json (borrower loanData)) ++ nl
  ++ lit "      - Loan amount: "
  ++ number_to_string (loanAmount (loanDetails loanData)) ++ nl
  ++ lit "      - Loan type: " ++ loanType (loanDetails loanData) ++ nl
  ++ lit "      - Desired timeline: "
  ++ desiredTimeline (loanDetails loanData) ++ nl
  ++ lit "      " ++ nl
  ++ lit "      Requirements:" ++ nl
  ++ lit "      1) pragma solidity ^0.8.0" ++ nl
  ++ lit "      2) Include admin, statuses (Pending, Approved, Rejected, Repaid)" ++ nl
  ++ lit "      3) Provide only valid Solidity code, NO extra text, nothing else." ++ nl
  ++ lit "      4) No lines before or after the code. Just the Solidity. " ++ nl
  ++ lit "      5) Do not use 'address' for physicalAddress. Use 'physicalAddress' in struct, etc." ++ nl
  ++ lit "    ".

Definition contractName (timestamp : Z) : jsstring :=
  lit "CustomMortgageLoan_" ++ number_to_string timestamp.

Definition contractsDir (dirname : jsstring) : jsstring :=
  path_join [dirname; lit "contracts"].

Definition solFileName (timestamp : Z) : jsstring :=
  contractName timestamp ++ lit ".sol".

Definition solFilePath (dirname : jsstring) (timestamp : Z) : jsstring :=
  path_join [contractsDir dirname; solFileName timestamp].

(** [/contract\s+CustomMortgageLoan\b/g] *)
Definition contract_decl_re : regex :=
  Cat (lit_re (lit "contract"))
    (Cat (PlusCls is_space)
       (Cat (lit_re (lit "CustomMortgageLoan")) WordB)).

Definition updatedCode (timestamp : Z) (solidityCode : jsstring) : jsstring :=
  replace_all contract_decl_re 0
    (lit "contract " ++ contractName timestamp) solidityCode.

Definition migrationsDir (dirname : jsstring) : jsstring :=
  path_join [dirname; lit "migrations"].

Definition migrationFileName (timestamp : Z) : jsstring :=
  number_to_string timestamp ++ lit "_deploy_"
  ++ contractName timestamp ++ lit ".js".

Definition migrationFilePath (dirname : jsstring) (timestamp : Z) : jsstring :=
  path_join [migrationsDir dirname; migrationFileName timestamp].

Definition migrationContent (timestamp : Z) : jsstring :=
  nl
  ++ lit "const " ++ contractName timestamp ++ lit " = artifacts.require("
  ++ dq ++ contractName timestamp ++ dq ++ lit ");" ++ nl
  ++ nl
  ++ lit "module.exports = function (deployer) {" ++ nl
  ++ lit "  deployer.deploy(" ++ contractName timestamp ++ lit ");" ++ nl
  ++ lit "};" ++ nl.

(** [/contract address:\s+(0x[a-fA-F0-9]+)/] *)
Definition address_re : regex :=
  Cat (lit_re (lit "contract address:"))
    (Cat (PlusCls is_space)
       (Grp 1 (Cat (lit_re (lit "0x")) (PlusCls is_hex)))).

Definition zero_address : jsstring :=
  lit "0x0000000000000000000000000000000000000000".

(** The callback given to [exec]. *)
Definition exec_callback (r : exec_result) : M response :=
  match exec_err r with
  | Some _ =>
      console_error [lit "[SERVER] Deployment error:"; stderr r];;
      ret (Response 500
             (error_body (lit "Failed to compile or deploy contract")))
  | None =>
      console_log [lit "[SERVER] Truffle stdout:" ++ nl; stdout r];;
      let matched := js_match address_re 1 (stdout r) in
      let contractAddress :=
        match matched with
        | Some arr => mjoin (arr !! 1)
        | None => None
        end in
      if falsy contractAddress then
        ret (Response 200
               (JObj [(lit "contractAddress", JStr zero_address);
                      (lit "info",
                       JStr (lit "Contract deployed but no address found in logs."))]))
      else
        ret (Response 200
               (JObj [(lit "contractAddress",
                       JStr (default [] contractAddress))]))
  end.

(** Parts (B) and (C) of the route: the two files of a request. *)
Definition write_artifacts (dirname : jsstring) (timestamp : Z)
    (solidityCode : jsstring) : M unit :=
  let* present := existsSync (contractsDir dirname) in
  when (negb present) (mkdirSync (contractsDir dirname));;
  writeFileSync (solFilePath dirname timestamp)
                (updatedCode timestamp solidityCode);;
  console_log [lit "[SERVER] Wrote new Solidity file: " ++ solFileName timestamp];;
  let* present := existsSync (migrationsDir dirname) in
  when (negb present) (mkdirSync (migrationsDir dirname));;
  writeFileSync (migrationFilePath dirname timestamp)
                (migrationContent timestamp);;
  console_log [lit "[SERVER] Wrote new migration file: "
               ++ migrationFileName timestamp].

(** The route.  [timestamp] is what [Date.now()] reads, [truffle]
    how the toolchain run ends. *)
Definition handler (loanData : LoanRecord) (dirname : jsstring)
    (openai : endpoint) (timestamp : Z) (truffle : exec_result)
    : M response :=
  try_catch
    (let* content := createChatCompletion openai (prompt loanData) in
     let solidityCode := stripMarkdownFences (trim content) in
     write_artifacts dirname timestamp solidityCode;;
     exec_callback truffle)
    (fun msg =>
       console_error [lit "[SERVER] Error in auto-deploy route:"; msg];;
       ret (Response 500 (error_body msg))).

End AutoDeploy.

(** [GET /test] *)
Module TestRoute.

Definition handler : M response :=
  ret (Response 200 (JObj [(lit "message", JStr (lit "Server is running!"))])).

End TestRoute.

(** [process.env.PORT || 4000]: the variable of the environment when it
    is set and not empty, the number 4000 otherwise. *)
Definition PORT (env_port : option jsstring) : jsstring + Z :=
  if falsy env_port then inr 4000%Z else inl (default [] env_port).

(* ================================================================= *)
(** * Vocabulary of the statements *)

(** [sub] occurs in [s]. *)
Definition infix_of (sub s : jsstring) : Prop :=
  exists pre post, s = pre ++ sub ++ post.

Definition all_space (ws : jsstring) : Prop := Forall (fun c => is_space c = true) ws.
Definition all_hex (h : jsstring) : Prop := Forall (fun c => is_hex c = true) h.

(** The text [s] starts with a declaration of the generated contract as
    the rewrite sees it: the text [contract], a run of whitespace
    [ws], the name, and no word character after the name. *)
Definition decl_with (ws rest s : jsstring) : Prop :=
  s = lit "contract" ++ ws ++ lit "CustomMortgageLoan" ++ rest
  /\ ws <> [] /\ all_space ws /\ word_at (head rest) = false.

Definition decl_at (s : jsstring) : Prop := exists ws rest, decl_with ws rest s.

(** The same test as a function, for the text at the current index. *)
Definition decl_prefix (s : jsstring) : option (jsstring * jsstring) :=
  match strip_prefix (lit "contract") s with
  | None => None
  | Some s1 =>
      match take_while is_space s1 with
      | [] => None
      | ws =>
          match strip_prefix (lit "CustomMortgageLoan") (drop_while is_space s1) with
          | None => None
          | Some rest => if word_at (head rest) then None else Some (ws, rest)
          end
      end
  end.





(** [stdout] has the address [a] on a line of the expected form. *)
Definition address_with (ws h rest s : jsstring) : Prop :=
  s = lit "contract address:" ++ ws ++ lit "0x" ++ h ++ rest
  /\ ws <> [] /\ all_space ws /\ h <> [] /\ all_hex h.

Definition address_at (s : jsstring) : Prop :=
  exists ws h rest, address_with ws h rest s.

Definition address_line (out a : jsstring) : Prop :=
  exists pre ws h rest, out = pre ++ lit "contract address:" ++ ws ++ a ++ rest
    /\ a = lit "0x" ++ h /\ ws <> [] /\ all_space ws /\ h <> [] /\ all_hex h.

Definition address_prefix (s : jsstring) : option jsstring :=
  match strip_prefix (lit "contract address:") s with
  | None => None
  | Some s1 =>
      match take_while is_space s1 with
      | [] => None
      | _ =>
          match strip_prefix (lit "0x") (drop_while is_space s1) with
          | None => None
          | Some s2 =>
              match take_while is_hex s2 with
              | [] => None
              | h => Some (lit "0x" ++ h)
              end
          end
      end
  end.




Definition with_stdout (out : jsstring) (r : exec_result) : exec_result :=
  ExecResult (outcome r) out (stderr r).

(** A file name that [path.join] keeps as the last segment. *)
Definition plain_segment (seg : jsstring) : Prop :=
  seg <> [] /\ (slash ∉ seg) /\ seg <> lit "." /\ seg <> lit "..".

(** The number of backticks a text starts with. *)
Definition lead (s : jsstring) : nat := length (take_while (N.eqb 96) s).

(** The matcher state after the longest run of a class. *)
Definition after_run (p : code_unit -> bool) (x : mstate) (s : jsstring) : mstate :=
  MState (rev (take_while p s) ++ consumed x) (drop_while p s) (captures x).

(** The code units of a decimal numeral. *)
Definition numeral_char (c : code_unit) : Prop := is_digit c = true \/ c = 45%N.

(** The first address in a text, attempt by attempt. *)
Fixpoint first_address (s : jsstring) : option jsstring :=
  match address_prefix s with
  | Some a => Some a
  | None => match s with [] => None | _ :: t => first_address t end
  end.

(** The bodies the callback answers with. *)
Definition address_body (a : jsstring) : json :=
  JObj [(lit "contractAddress", JStr a)].

Definition fallback_body : json :=
  JObj [(lit "contractAddress", JStr AutoDeploy.zero_address);
        (lit "info", JStr (lit "Contract deployed but no address found in logs."))].

Definition failure_body : json :=
  error_body (lit "Failed to compile or deploy contract").

(** What [path.join] puts before a plain last segment. *)
Definition dir_prefix (d : jsstring) : jsstring :=
  match d with
  | [] => []
  | c :: _ =>
      let isAbsolute := N.eqb c slash in
      (if isAbsolute then lit "/" else [])
      ++ match rev (fold_left (norm_step (negb isAbsolute)) (split_slash d) []) with
         | [] => []
         | segs => join_slash segs ++ [slash]
         end
  end.


(* ================================================================= *)
(** * The model on the scenarios of the specification *)

Example strip_scenario :
  stripMarkdownFences
    (lit "```solidity" ++ nl ++ lit "pragma solidity ^0.8.0;" ++ nl
     ++ lit "contract CustomMortgageLoan {}" ++ nl ++ lit "```")
  = lit "pragma solidity ^0.8.0;" ++ nl ++ lit "contract CustomMortgageLoan {}".
Proof. by vm_compute. Qed.

Example strip_run_of_backticks :
  stripMarkdownFences (lit "x `````js` y") = lit "x ``js` y".
Proof. by vm_compute. Qed.

Example stringify_borrower :
  stringify (borrower_json (borrower loanData))
  = lit "{" ++ dq ++ lit "name" ++ dq ++ lit ":" ++ dq ++ lit "YJ" ++ dq
    ++ lit "," ++ dq ++ lit "contact" ++ dq ++ lit ":{"
    ++ dq ++ lit "phone" ++ dq ++ lit ":" ++ dq ++ lit "+1-555-123-4567" ++ dq
    ++ lit "," ++ dq ++ lit "email" ++ dq ++ lit ":" ++ dq
    ++ lit "manny@example.com" ++ dq
    ++ lit "," ++ dq ++ lit "address" ++ dq ++ lit ":" ++ dq
    ++ lit "123 Elm Street, Springfield, IL, 62704" ++ dq ++ lit "}}".
Proof. by vm_compute. Qed.

Example path_join_scenarios :
  path_join [lit "/srv/app"; lit "contracts"] = lit "/srv/app/contracts"
  /\ path_join [lit "/srv/app/../x/./"; lit "contracts"] = lit "/srv/x/contracts"
  /\ path_join [lit "../../a/.."; lit ".."; lit "c/"] = lit "../../../c/"
  /\ path_join [[]; []] = lit ".".
Proof. split_and!; by vm_compute. Qed.

Example artifact_paths :
  AutoDeploy.solFilePath (lit "/srv/app") 1700000000123
  = lit "/srv/app/contracts/CustomMortgageLoan_1700000000123.sol"
  /\ AutoDeploy.migrationFilePath (lit "/srv/app") 1700000000123
     = lit "/srv/app/migrations/1700000000123_deploy_CustomMortgageLoan_1700000000123.js".
Proof. split; by vm_compute. Qed.

Example rewrite_scenario :
  AutoDeploy.updatedCode 17
    (lit "contract CustomMortgageLoan { CustomMortgageLoan c; }"
     ++ nl ++ lit "contract CustomMortgageLoanV2 {}")
  = lit "contract CustomMortgageLoan_17 { CustomMortgageLoan c; }"
    ++ nl ++ lit "contract CustomMortgageLoanV2 {}".
Proof. by vm_compute. Qed.

Example replace_dollar_patterns :
  replace_all (Cat (Chr 97) (Grp 1 (PlusCls is_word))) 1
    (lit "[$1|$&|$$|$2|$01]") (lit "xx abc")
  = lit "xx [bc|abc|$|$2|bc]".
Proof. by vm_compute. Qed.

Example replace_empty_matches :
  replace_all Eps 0 (lit "-") (lit "abc") = lit "-a-b-c-".
Proof. by vm_compute. Qed.

(* ================================================================= *)
(** * Lists and strings *)

Lemma strip_prefix_app p t : strip_prefix p (p ++ t) = Some t.
Proof.
  induction p as [|a p IH]; simpl; [done|]. by rewrite N.eqb_refl.
Qed.

Lemma strip_prefix_Some p s t : strip_prefix p s = Some t -> s = p ++ t.
Proof.
  revert s. induction p as [|a p IH]; intros s; simpl.
  - by intros [= ->].
  - destruct s as [|b s]; [done|].
    destruct (N.eqb_spec a b) as [->|]; [|done].
    intros H. by rewrite (IH _ H).
Qed.

Lemma take_drop_while {A} (p : A -> bool) l :
  take_while p l ++ drop_while p l = l.
Proof.
  induction l as [|x l IH]; simpl; [done|].
  destruct (p x); simpl; [by rewrite IH | done].
Qed.

Lemma take_while_Forall {A} (p : A -> bool) l :
  Forall (fun c => p c = true) (take_while p l).
Proof.
  induction l as [|x l IH]; simpl; [constructor|].
  destruct (p x) eqn:E; by constructor.
Qed.

Lemma take_while_app_stop {A} (p : A -> bool) l r :
  Forall (fun c => p c = true) l ->
  match head r with Some x => p x = false | None => True end ->
  take_while p (l ++ r) = l /\ drop_while p (l ++ r) = r.
Proof.
  intros Hl Hr. induction Hl as [|x l Hx Hl IH]; simpl.
  - destruct r as [|y r]; simpl in *; [done|]. by rewrite Hr.
  - rewrite Hx. destruct IH as [-> ->]. done.
Qed.

Lemma drop_while_idemp {A} (p : A -> bool) l :
  drop_while p (drop_while p l) = drop_while p l.
Proof.
  induction l as [|x l IH]; simpl; [done|].
  destruct (p x) eqn:E; [done|]. simpl. by rewrite E.
Qed.

Lemma includes_unfold sub s :
  includes sub s =
  match strip_prefix sub s with
  | Some _ => true
  | None => match s with [] => false | _ :: t => includes sub t end
  end.
Proof. by destruct s. Qed.

Lemma includes_true sub s : includes sub s = true <-> infix_of sub s.
Proof.
  split.
  - induction s as [|c s IH]; rewrite includes_unfold.
    + destruct (strip_prefix sub []) eqn:E; [|done].
      intros _. exists [], l. by apply strip_prefix_Some in E.
    + destruct (strip_prefix sub (c :: s)) eqn:E.
      * intros _. exists [], l. by apply strip_prefix_Some in E.
      * intros H. destruct (IH H) as (pre & post & ->).
        by exists (c :: pre), post.
  - intros (pre & post & ->). induction pre as [|c pre IH].
    + simpl app. by rewrite includes_unfold, strip_prefix_app.
    + rewrite includes_unfold. simpl app.
      by destruct (strip_prefix sub (c :: pre ++ sub ++ post)).
Qed.

Lemma includes_false sub s : includes sub s = false <-> ~ infix_of sub s.
Proof.
  rewrite <- includes_true. by destruct (includes sub s).
Qed.

Lemma drop_while_length {A} (p : A -> bool) l :
  length (drop_while p l) <= length l.
Proof.
  induction l as [|x l IH]; simpl; [done|].
  destruct (p x); simpl; lia.
Qed.

Lemma rev_cons_app {A} (c : A) l b : rev (c :: l) ++ b = rev l ++ c :: b.
Proof. cbn [rev]. by rewrite <- app_assoc. Qed.

(* ================================================================= *)
(** * The matcher *)

Lemma matcher_lit_re p x k :
  matcher (lit_re p) x k =
  match strip_prefix p (remaining x) with
  | Some t => k (MState (rev p ++ consumed x) t (captures x))
  | None => None
  end.
Proof.
  revert x. induction p as [|a p IH]; intros [b s caps]; simpl; [done|].
  destruct s as [|d t]; [done|].
  destruct (N.eqb_spec a d) as [->|]; [|done].
  rewrite IH. simpl. destruct (strip_prefix p t); [|done].
  by rewrite <- app_assoc.
Qed.

(** A greedy run stops at its longest extent as soon as the rest of
    the pattern succeeds there. *)
Lemma star_cls_greedy p x s k y :
  remaining x = s -> k (after_run p x s) = Some y -> star_cls p x s k = Some y.
Proof.
  revert x. induction s as [|c t IH]; intros [b s' caps]; simpl; intros ->.
  - done.
  - unfold after_run. simpl. destruct (p c) eqn:E; [|done].
    intros H. rewrite (IH (advance (MState b (c :: t) caps) c t)); [done..|].
    unfold after_run, advance. simpl. by rewrite <- rev_cons_app.
Qed.

(** When the rest of the pattern cannot start with a code unit of the
    class, giving code units back never helps. *)
Lemma star_cls_blocked p x s k :
  remaining x = s ->
  (forall z c t, remaining z = c :: t -> p c = true -> k z = None) ->
  star_cls p x s k = k (after_run p x s).
Proof.
  intros Hx Hk. revert x Hx.
  induction s as [|c t IH]; intros [b s' caps]; simpl; intros ->.
  - done.
  - unfold after_run. simpl. destruct (p c) eqn:E; [|done].
    rewrite (IH (advance (MState b (c :: t) caps) c t)); [|done].
    unfold after_run, advance. simpl. rewrite <- rev_cons_app.
    destruct (k _) eqn:Ek; [done|].
    by rewrite (Hk (MState b (c :: t) caps) c t).
Qed.

(* ================================================================= *)
(** * [replace] with a global pattern *)

Lemma replace_from_inside re g tmpl n : forall s b,
  n <= length s ->
  replace_from re g tmpl b s n
  = replace_from re g tmpl (rev (take n s) ++ b) (drop n s) 0.
Proof.
  induction n as [|n IH]; intros s b Hn.
  - by rewrite take_0, drop_0.
  - destruct s as [|c t]; simpl in Hn; [lia|].
    simpl. rewrite IH by lia. by rewrite <- app_assoc.
Qed.

Lemma replace_from_nil re g tmpl b :
  exec_at re g b [] = None -> replace_from re g tmpl b [] 0 = [].
Proof. simpl. by intros ->. Qed.

Lemma replace_from_nomatch re g tmpl b c t :
  exec_at re g b (c :: t) = None ->
  replace_from re g tmpl b (c :: t) 0
  = c :: replace_from re g tmpl (c :: b) t 0.
Proof. simpl. by intros ->. Qed.

Lemma replace_from_match re g tmpl b m r y :
  m <> [] ->
  exec_at re g b (m ++ r) = Some y ->
  remaining y = r ->
  replace_from re g tmpl b (m ++ r) 0
  = get_substitution m (rev b) r (match_array (m ++ r) y) tmpl
    ++ replace_from re g tmpl (rev m ++ b) r 0.
Proof.
  intros Hm He Hr. destruct m as [|c m]; [done|].
  change ((c :: m) ++ r) with (c :: (m ++ r)) in *.
  cbn [replace_from]. rewrite He, Hr.
  change (length (c :: m ++ r)) with (S (length (m ++ r))).
  rewrite length_app.
  replace (S (length m + length r) - length r) with (S (length m)) by lia.
  rewrite replace_from_inside by (rewrite length_app; lia).
  rewrite take_app_length, drop_app_length.
  cbn [take]. rewrite take_app_length.
  by rewrite rev_cons_app.
Qed.

Lemma get_substitution_literal m b a caps tmpl :
  Forall (fun c => c <> 36%N) tmpl -> get_substitution m b a caps tmpl = tmpl.
Proof.
  induction 1 as [|c t Hc Ht IH]; cbn [get_substitution]; [done|].
  destruct (N.eqb_spec c 36) as [|_]; [done|]. cbn [negb]. by rewrite IH.
Qed.

(* ================================================================= *)
(** * The fence stripper *)

Lemma fence_lit : lit "```" = [96; 96; 96]%N.
Proof. reflexivity. Qed.

Lemma strip_prefix_fence_lead s :
  strip_prefix (lit "```") s = None <-> lead s <= 2.
Proof.
  unfold lead. rewrite fence_lit.
  destruct s as [|a [|b [|c s]]]; cbn [strip_prefix take_while length];
    repeat (match goal with |- context [N.eqb 96 ?x] => destruct (N.eqb 96 x) end;
            cbn [strip_prefix take_while length]); split; intros; (done || lia).
Qed.

Lemma lead_cons c s :
  lead (c :: s) = if N.eqb 96 c then S (lead s) else 0.
Proof. unfold lead. cbn [take_while]. by destruct (N.eqb 96 c). Qed.

Lemma no_fence_lead s : includes (lit "```") s = false -> lead s <= 2.
Proof.
  rewrite includes_unfold.
  destruct (strip_prefix (lit "```") s) eqn:E; [done|].
  intros _. by apply strip_prefix_fence_lead.
Qed.

Lemma exec_fence_open_None b s :
  strip_prefix (lit "```") s = None -> exec_at fence_open_re 1 b s = None.
Proof.
  intros H. unfold exec_at, fence_open_re. cbn [matcher].
  rewrite matcher_lit_re. cbn [remaining]. by rewrite H.
Qed.

Lemma exec_fence_open_Some b s t :
  strip_prefix (lit "```") s = Some t ->
  exists y, exec_at fence_open_re 1 b s = Some y
            /\ remaining y = drop_while is_word t.
Proof.
  intros H. unfold exec_at, fence_open_re. cbn [matcher].
  rewrite matcher_lit_re. cbn [remaining consumed captures]. rewrite H.
  destruct t as [|d t']; cbn [remaining]; [by eexists|].
  destruct (is_word d) eqn:Ed; cbn [drop_while]; rewrite Ed; [|by eexists].
  assert (Nat.eqb (length (drop_while is_word t')) (S (length t')) = false) as Hlen.
  { apply Nat.eqb_neq. pose proof (drop_while_length is_word t'). lia. }
  match goal with |- context [star_cls ?p ?x ?s ?k] =>
    destruct (k (after_run p x s)) as [y|] eqn:Ek end;
    cbn [after_run advance remaining consumed captures length] in Ek;
    rewrite Hlen in Ek; [|done].
  rewrite (star_cls_greedy _ _ _ _ y).
  - exists y; split; [reflexivity|]. by injection Ek as <-.
  - done.
  - cbn [after_run advance remaining consumed captures length].
    by rewrite Hlen.
Qed.

Lemma exec_fence_bare_None b s :
  strip_prefix (lit "```") s = None -> exec_at fence_bare_re 0 b s = None.
Proof.
  intros H. unfold exec_at, fence_bare_re.
  rewrite matcher_lit_re. cbn [remaining]. by rewrite H.
Qed.

(** A text without fences passes through either replacement unchanged. *)
Lemma replace_no_fence re g b s :
  (forall b' s', strip_prefix (lit "```") s' = None -> exec_at re g b' s' = None) ->
  includes (lit "```") s = false ->
  replace_from re g [] b s 0 = s.
Proof.
  intros Hre. revert b. induction s as [|c t IH]; intros b.
  - intros _. by apply replace_from_nil, Hre.
  - rewrite includes_unfold.
    destruct (strip_prefix (lit "```") (c :: t)) eqn:E; [done|].
    intros Ht. rewrite replace_from_nomatch by by apply Hre.
    by rewrite IH.
Qed.

(** After the first replacement no run of three backticks is left, and
    the result starts with no more backticks than the input. *)
Lemma replace_fence_open_inv n : forall s b,
  length s <= n ->
  includes (lit "```") (replace_from fence_open_re 1 [] b s 0) = false
  /\ lead (replace_from fence_open_re 1 [] b s 0) <= lead s.
Proof.
  induction n as [|n IH]; intros s b Hn.
  - destruct s; [|simpl in Hn; lia].
    rewrite replace_from_nil by by apply exec_fence_open_None. done.
  - destruct (strip_prefix (lit "```") s) as [t|] eqn:E.
    + destruct (exec_fence_open_Some b s t E) as (y & Hy & Hr).
      pose proof (strip_prefix_Some _ _ _ E) as Hs.
      rewrite <- (take_drop_while is_word t) in Hs.
      rewrite app_assoc in Hs. rewrite Hs in Hy |- *.
      rewrite (replace_from_match _ _ _ _ _ _ y); [|done..].
      cbn [get_substitution app].
      destruct (IH (drop_while is_word t)
                   (rev (lit "```" ++ take_while is_word t) ++ b)) as [H1 H2].
      { pose proof (drop_while_length is_word t).
        assert (length s = 3 + length t) as Hl
          by (by rewrite (strip_prefix_Some _ _ _ E)).
        lia. }
      split; [done|].
      apply no_fence_lead in H1. rewrite <- Hs.
      destruct (strip_prefix_fence_lead s) as [_ Hl].
      destruct (le_gt_dec (lead s) 2) as [Hle|]; [|lia].
      rewrite (Hl Hle) in E. done.
    + destruct s as [|c t].
      { rewrite replace_from_nil by by apply exec_fence_open_None. done. }
      rewrite replace_from_nomatch by by apply exec_fence_open_None.
      destruct (IH t (c :: b)) as [H1 H2]; [simpl in Hn; lia|].
      apply strip_prefix_fence_lead in E. rewrite lead_cons in E.
      split.
      * rewrite includes_unfold, H1.
        destruct (strip_prefix _ _) eqn:E'; [|done].
        assert (strip_prefix (lit "```")
                  (c :: replace_from fence_open_re 1 [] (c :: b) t 0) = None)
          as E''; [|by rewrite E'' in E'].
        apply strip_prefix_fence_lead. rewrite lead_cons.
        destruct (N.eqb 96 c); lia.
      * rewrite !lead_cons. destruct (N.eqb 96 c); lia.
Qed.

Lemma trimEnd_split s :
  s = trimEnd s ++ rev (take_while is_space (rev s)).
Proof.
  unfold trimEnd. rewrite <- rev_app_distr, take_drop_while.
  by rewrite rev_involutive.
Qed.

Lemma trim_infix s : infix_of (trim s) s.
Proof.
  exists (take_while is_space s), (rev (take_while is_space (rev (trimStart s)))).
  unfold trim. rewrite <- trimEnd_split. unfold trimStart.
  by rewrite take_drop_while.
Qed.

Lemma infix_of_trans a b c : infix_of a b -> infix_of b c -> infix_of a c.
Proof.
  intros (p1 & q1 & ->) (p2 & q2 & ->).
  exists (p2 ++ p1), (q1 ++ q2). by rewrite <- !app_assoc.
Qed.

Lemma trimEnd_idemp s : trimEnd (trimEnd s) = trimEnd s.
Proof.
  unfold trimEnd. by rewrite rev_involutive, drop_while_idemp.
Qed.

(** Trimming the end leaves a text that starts with no whitespace
    that way. *)
Lemma trimStart_trimEnd s :
  trimStart s = s -> trimStart (trimEnd s) = trimEnd s.
Proof.
  intros Hs. unfold trimStart in *.
  pose proof (trimEnd_split s) as Hsplit.
  destruct (trimEnd s) as [|c t] eqn:E; [done|].
  simpl. destruct (is_space c) eqn:Ec; [|done].
  rewrite Hsplit in Hs. simpl in Hs. rewrite Ec in Hs.
  pose proof (drop_while_length is_space (t ++ rev (take_while is_space (rev s)))) as Hlen.
  rewrite Hs in Hlen. simpl in Hlen. lia.
Qed.

Lemma trim_idemp s : trim (trim s) = trim s.
Proof.
  unfold trim.
  rewrite (trimStart_trimEnd (trimStart s)).
  - apply trimEnd_idemp.
  - apply drop_while_idemp.
Qed.

Lemma replace_fence_open_no_fence s :
  includes (lit "```") (replace_all fence_open_re 1 [] s) = false.
Proof. apply (replace_fence_open_inv (length s)). done. Qed.

Lemma stripMarkdownFences_includes x :
  includes (lit "```") (stripMarkdownFences x) = false.
Proof.
  unfold stripMarkdownFences.
  pose proof (replace_fence_open_no_fence x) as H1.
  unfold replace_all at 1.
  rewrite (replace_no_fence _ _ _ _ exec_fence_bare_None H1).
  apply includes_false. intros H. apply includes_false in H1. apply H1.
  eapply infix_of_trans; [exact H|]. apply trim_infix.
Qed.

(** C7: whatever the input, the output of [stripMarkdownFences] holds
    no three consecutive backticks. *)
Theorem stripMarkdownFences_no_fence (x : jsstring) :
  ~ infix_of (lit "```") (stripMarkdownFences x).
Proof. apply includes_false, stripMarkdownFences_includes. Qed.

(** A text without three consecutive backticks is only trimmed. *)
Lemma stripMarkdownFences_clean y :
  includes (lit "```") y = false -> stripMarkdownFences y = trim y.
Proof.
  intros Hy. unfold stripMarkdownFences, replace_all.
  rewrite (replace_no_fence fence_open_re 1 [] y exec_fence_open_None Hy).
  by rewrite (replace_no_fence fence_bare_re 0 [] y exec_fence_bare_None Hy).
Qed.

(** C2: the fence stripper is idempotent. *)
Theorem stripMarkdownFences_idempotent (x : jsstring) :
  stripMarkdownFences (stripMarkdownFences x) = stripMarkdownFences x.
Proof.
  rewrite (stripMarkdownFences_clean _ (stripMarkdownFences_includes x)).
  unfold stripMarkdownFences. apply trim_idemp.
Qed.

(* ================================================================= *)
(** * Decimal numerals *)

Lemma pretty_N_go_chars x : forall s,
  Forall numeral_char (lit s) -> Forall numeral_char (lit (pretty_N_go x s)).
Proof.
  induction (N.lt_wf_0 x) as [x _ IH]; intros s Hs.
  destruct (decide (x = 0)%N) as [->|Hx].
  - by rewrite pretty_N_go_0.
  - rewrite pretty_N_go_step by lia. apply IH.
    + apply N.div_lt; lia.
    + cbn [lit]. constructor; [|done]. left.
      unfold pretty_N_char. by repeat case_match.
Qed.

Lemma number_to_string_chars z : Forall numeral_char (number_to_string z).
Proof.
  unfold number_to_string, pretty, pretty_Z.
  destruct z as [|p|p].
  - repeat constructor.
  - unfold pretty, pretty_positive, pretty, pretty_N.
    case_decide; [repeat constructor|]. by apply pretty_N_go_chars.
  - change (lit ("-" +:+ pretty p)) with (45%N :: lit (pretty p)).
    constructor; [by right|].
    unfold pretty, pretty_positive, pretty, pretty_N.
    case_decide; [repeat constructor|]. by apply pretty_N_go_chars.
Qed.



Lemma pretty_N_go_nonempty x : forall s,
  s <> EmptyString -> pretty_N_go x s <> EmptyString.
Proof.
  induction (N.lt_wf_0 x) as [x _ IH]; intros s Hs.
  destruct (decide (x = 0)%N) as [->|Hx]; [by rewrite pretty_N_go_0|].
  rewrite pretty_N_go_step by lia. apply IH; [apply N.div_lt; lia|done].
Qed.

Lemma number_to_string_nonempty z : number_to_string z <> [].
Proof.
  unfold number_to_string. intros H.
  assert (pretty z = EmptyString) as E by (by destruct (pretty z)).
  revert E. clear H. unfold pretty, pretty_Z. destruct z as [|p|p]; [done| |done].
  unfold pretty, pretty_positive, pretty, pretty_N.
  case_decide; [done|]. rewrite pretty_N_go_step by lia.
  by apply pretty_N_go_nonempty.
Qed.

(* ================================================================= *)
(** * The contract-name rewrite *)

Lemma contract_lit : lit "contract" = [99; 111; 110; 116; 114; 97; 99; 116]%N.
Proof. reflexivity. Qed.

Lemma name_lit :
  lit "CustomMortgageLoan"
  = [67; 117; 115; 116; 111; 109; 77; 111; 114; 116; 103; 97; 103; 101;
     76; 111; 97; 110]%N.
Proof. reflexivity. Qed.

Lemma decl_prefix_with s ws rest :
  decl_prefix s = Some (ws, rest) <-> decl_with ws rest s.
Proof.
  unfold decl_prefix, decl_with. split.
  - destruct (strip_prefix (lit "contract") s) as [s1|] eqn:E1; [|done].
    destruct (take_while is_space s1) as [|w ws'] eqn:Ew; [done|].
    destruct (strip_prefix _ (drop_while is_space s1)) as [r|] eqn:E2; [|done].
    destruct (word_at (head r)) eqn:Er; [done|].
    intros [= <- <-]. split_and!; try done.
    + apply strip_prefix_Some in E1, E2.
      by rewrite E1, <- (take_drop_while is_space s1), Ew, E2.
    + rewrite <- Ew. apply take_while_Forall.
  - intros (-> & Hne & Hws & Hr).
    rewrite strip_prefix_app.
    destruct (take_while_app_stop is_space ws (lit "CustomMortgageLoan" ++ rest))
      as [-> ->]; [done|done|].
    rewrite strip_prefix_app, Hr. by destruct ws.
Qed.

Lemma decl_prefix_at s : is_Some (decl_prefix s) <-> decl_at s.
Proof.
  split.
  - intros [[ws rest] H]. exists ws, rest. by apply decl_prefix_with.
  - intros (ws & rest & H). exists (ws, rest). by apply decl_prefix_with.
Qed.

Lemma decl_prefix_not_at s : decl_prefix s = None <-> ~ decl_at s.
Proof.
  rewrite <- decl_prefix_at. destruct (decl_prefix s) as [x|]; split; try done.
  intros H. destruct H. by eexists.
Qed.

(** One attempt of the pattern is the test [decl_prefix]: the greedy
    whitespace run never has to give anything back, since the name
    does not start with whitespace. *)
Lemma exec_contract_decl b s :
  exec_at AutoDeploy.contract_decl_re 0 b s =
  match decl_prefix s with
  | Some (ws, rest) =>
      Some (MState (rev (lit "CustomMortgageLoan")
                    ++ rev ws ++ rev (lit "contract") ++ b) rest [None])
  | None => None
  end.
Proof.
  unfold exec_at, AutoDeploy.contract_decl_re, decl_prefix. cbn [matcher].
  rewrite matcher_lit_re. cbn [remaining consumed captures].
  destruct (strip_prefix (lit "contract") s) as [s1|]; [|done].
  destruct s1 as [|d t]; [done|]. cbn [take_while drop_while remaining].
  destruct (is_space d) eqn:Ed; [|done].
  rewrite star_cls_blocked; [|done|].
  - rewrite matcher_lit_re.
    cbn [after_run advance remaining consumed captures].
    destruct (strip_prefix _ (drop_while is_space t)) as [r|]; [|done].
    cbn [matcher consumed remaining]. rewrite name_lit. cbn [rev app head word_at].
    change (is_word 110) with true. cbn [xorb].
    destruct (word_at (head r)); [done|]. cbn [negb].
    by rewrite rev_cons_app.
  - intros z c t' Hz Hc. rewrite matcher_lit_re, Hz, name_lit.
    cbn [strip_prefix]. destruct (N.eqb_spec 67 c) as [<-|]; [done|done].
Qed.

Lemma exec_contract_decl_None b s :
  decl_prefix s = None -> exec_at AutoDeploy.contract_decl_re 0 b s = None.
Proof. intros H. by rewrite exec_contract_decl, H. Qed.

Lemma exec_contract_decl_Some b s ws rest :
  decl_prefix s = Some (ws, rest) ->
  exists y, exec_at AutoDeploy.contract_decl_re 0 b s = Some y /\ remaining y = rest.
Proof. intros H. rewrite exec_contract_decl, H. by eexists. Qed.

(** The text a replacement passes over starts no other declaration. *)
Lemma decl_no_overlap s ws rest i :
  decl_with ws rest s -> 0 < i < 26 + length ws -> decl_prefix (drop i s) = None.
Proof.
  intros (-> & Hne & Hws & Hr) Hi.
  assert (strip_prefix (lit "contract")
            (drop i (lit "contract" ++ ws ++ lit "CustomMortgageLoan" ++ rest))
          = None) as H; [|unfold decl_prefix; by rewrite H].
  destruct (decide (i < 8)) as [H8|H8].
  { rewrite contract_lit.
    do 8 (destruct i as [|i]; [(lia || reflexivity)|]). lia. }
  rewrite drop_app_ge by (rewrite contract_lit; simpl; lia).
  change (length (lit "contract")) with 8.
  destruct (decide (i - 8 < length ws)) as [Hw|Hw].
  { rewrite drop_app_le by lia.
    destruct (drop (i - 8) ws) as [|c ws'] eqn:Ed.
    { apply (f_equal length) in Ed. rewrite length_drop in Ed. simpl in Ed. lia. }
    assert (is_space c = true) as Hc.
    { apply (Forall_lookup_1 _ _ (i - 8) _ Hws).
      rewrite <- (Nat.add_0_r (i - 8)), <- lookup_drop, Ed. done. }
    rewrite contract_lit. cbn [app strip_prefix].
    destruct (N.eqb_spec 99 c) as [<-|]; [done|done]. }
  rewrite drop_app_ge by lia. rewrite name_lit, contract_lit.
  remember (i - 8 - length ws) as j eqn:Hj.
  do 18 (destruct j as [|j]; [reflexivity|]). lia.
Qed.

Lemma numeral_char_not_dollar c : numeral_char c -> c <> 36%N.
Proof. intros [H| ->]; [|done]. by intros ->. Qed.

Lemma numeral_char_not_slash c : numeral_char c -> c <> slash.
Proof. intros [H| ->]; [|done]. by intros ->. Qed.

(** The replacement text has no [$], so it is used as it stands. *)
Lemma replacement_literal ts m b a caps :
  get_substitution m b a caps (lit "contract " ++ AutoDeploy.contractName ts)
  = lit "contract " ++ AutoDeploy.contractName ts.
Proof.
  apply get_substitution_literal. unfold AutoDeploy.contractName.
  rewrite !Forall_app. split_and!.
  - by repeat constructor.
  - by repeat constructor.
  - eapply Forall_impl; [apply number_to_string_chars|].
    apply numeral_char_not_dollar.
Qed.

Lemma decl_with_length ws rest s :
  decl_with ws rest s -> length s = 26 + length ws + length rest.
Proof.
  intros (-> & _). rewrite !length_app, contract_lit, name_lit. simpl. lia.
Qed.

Lemma decl_with_drop ws rest s :
  decl_with ws rest s -> drop (26 + length ws) s = rest.
Proof.
  intros (-> & _). rewrite !app_assoc.
  rewrite drop_app_length'; [done|].
  rewrite !length_app, contract_lit, name_lit. simpl. lia.
Qed.


Lemma decl_at_nil : ~ decl_at [].
Proof. by apply decl_prefix_not_at. Qed.

Section Rewrite.

Variable ts : Z.

Let Q : jsstring := AutoDeploy.contractName ts.
Let G (b s : jsstring) : jsstring :=
  replace_from AutoDeploy.contract_decl_re 0 (lit "contract " ++ Q) b s 0.

Lemma rewrite_nil b : G b [] = [].
Proof. by apply replace_from_nil, exec_contract_decl_None. Qed.

Lemma rewrite_keep b c t :
  decl_prefix (c :: t) = None -> G b (c :: t) = c :: G (c :: b) t.
Proof. intros H. by apply replace_from_nomatch, exec_contract_decl_None. Qed.

Lemma rewrite_decl b ws rest s :
  decl_with ws rest s ->
  exists b', G b s = lit "contract " ++ Q ++ G b' rest.
Proof.
  intros H. pose proof H as (Hs & _).
  apply decl_prefix_with in H.
  destruct (exec_contract_decl_Some b s ws rest H) as (y & Hy & Hr).
  exists (rev (lit "contract" ++ ws ++ lit "CustomMortgageLoan") ++ b).
  unfold G. rewrite Hs, !app_assoc in *.
  rewrite (replace_from_match _ _ _ _ _ _ y); [|by rewrite contract_lit|done..].
  unfold Q. by rewrite replacement_literal, <- !app_assoc.
Qed.

(** The pattern ends in its own lookbehind, so the text before the
    scan does not matter. *)
Lemma rewrite_before n : forall s b b', length s <= n -> G b s = G b' s.
Proof.
  induction n as [|n IH]; intros s b b' Hn.
  - destruct s; [|simpl in Hn; lia]. by rewrite !rewrite_nil.
  - destruct (decl_prefix s) as [[ws rest]|] eqn:E.
    + apply decl_prefix_with in E.
      destruct (rewrite_decl b _ _ _ E) as (b1 & ->).
      destruct (rewrite_decl b' _ _ _ E) as (b2 & ->).
      do 2 f_equal. apply IH.
      apply decl_with_length in E. lia.
    + destruct s as [|c t]; [by rewrite !rewrite_nil|].
      rewrite !rewrite_keep by done. f_equal. apply IH. simpl in Hn. lia.
Qed.


(** Every declaration of the source gives way to the fixed text. *)
Lemma rewrite_occurrence n : forall s b i ws rest,
  length s <= n ->
  decl_with ws rest (drop i s) ->
  exists kept, G b s = kept ++ lit "contract " ++ Q ++ G [] rest.
Proof.
  induction n as [|n IH]; intros s b i ws rest Hn Hd.
  { destruct s; [|simpl in Hn; lia]. rewrite drop_nil in Hd.
    destruct decl_at_nil. by exists ws, rest. }
  destruct (decide (i = 0)) as [->|Hi].
  { rewrite drop_0 in Hd. destruct (rewrite_decl b _ _ _ Hd) as (b' & ->).
    exists []. cbn [app]. do 2 f_equal.
    apply (rewrite_before (length rest)). done. }
  destruct (decl_prefix s) as [[ws0 rest0]|] eqn:E.
  - apply decl_prefix_with in E.
    pose proof (decl_with_length _ _ _ E) as Hlen.
    destruct (rewrite_decl b _ _ _ E) as (b' & ->).
    destruct (decide (i < 26 + length ws0)) as [Hlt|Hge].
    { pose proof (decl_no_overlap _ _ _ i E) as Hno.
      rewrite decl_prefix_not_at in Hno. destruct Hno; [lia|by exists ws, rest]. }
    destruct (IH rest0 b' (i - (26 + length ws0)) ws rest) as (kept & ->); [lia| |].
    { rewrite <- (decl_with_drop _ _ _ E), drop_drop.
      by replace (26 + length ws0 + (i - (26 + length ws0))) with i by lia. }
    exists (lit "contract " ++ Q ++ kept). by rewrite <- !app_assoc.
  - destruct s as [|c t].
    { rewrite drop_nil in Hd. destruct decl_at_nil. by exists ws, rest. }
    rewrite rewrite_keep by done.
    destruct i as [|i]; [done|]. cbn [drop] in Hd.
    destruct (IH t (c :: b) i ws rest) as (kept & ->); [simpl in Hn; lia|done|].
    by exists (c :: kept).
Qed.

(** Up to the first declaration the source is kept as it is. *)
Lemma rewrite_first i : forall s b ws rest,
  decl_with ws rest (drop i s) ->
  (forall j, j < i -> ~ decl_at (drop j s)) ->
  G b s = take i s ++ lit "contract " ++ Q ++ G [] rest.
Proof.
  induction i as [|i IH]; intros s b ws rest Hd Hfirst.
  - rewrite drop_0 in Hd. destruct (rewrite_decl b _ _ _ Hd) as (b' & ->).
    rewrite take_0. cbn [app]. do 2 f_equal.
    by apply (rewrite_before (length rest)).
  - destruct s as [|c t].
    { rewrite drop_nil in Hd. destruct decl_at_nil. by exists ws, rest. }
    rewrite rewrite_keep.
    + rewrite firstn_cons. cbn [drop app] in *. f_equal.
      apply (IH t (c :: b) ws rest Hd).
      intros j Hj. apply (Hfirst (S j)). lia.
    + apply decl_prefix_not_at. apply (Hfirst 0). lia.
Qed.

End Rewrite.



(** C9: a declaration written with any run of whitespace [ws] between
    [contract] and the name comes out as [contract], one space and the
    qualified name, followed by the rewrite of the rest; before the
    first declaration the source is copied. *)
Theorem updatedCode_single_space (timestamp : Z) (src : jsstring) (i : nat)
    (ws rest : jsstring) :
  decl_with ws rest (drop i src) ->
  (exists kept,
      AutoDeploy.updatedCode timestamp src
      = kept ++ lit "contract " ++ AutoDeploy.contractName timestamp
        ++ AutoDeploy.updatedCode timestamp rest)
  /\ ((forall j, j < i -> ~ decl_at (drop j src)) ->
      AutoDeploy.updatedCode timestamp src
      = take i src ++ lit "contract " ++ AutoDeploy.contractName timestamp
        ++ AutoDeploy.updatedCode timestamp rest).
Proof.
  intros Hd. split.
  - apply (rewrite_occurrence timestamp (length src) src [] i ws rest); done.
  - intros Hfirst. by apply (rewrite_first timestamp i src [] ws rest).
Qed.

Lemma updatedCode_single_space_witness :
  let src := lit "pragma;" ++ [10; 10]%N ++ lit "contract" ++ [10; 9; 32; 32]%N
             ++ lit "CustomMortgageLoan {}" in
  decl_with [10; 9; 32; 32]%N (lit " {}") (drop 9 src)
  /\ exists kept,
       AutoDeploy.updatedCode 1700000000000 src
       = kept ++ lit "contract " ++ AutoDeploy.contractName 1700000000000
         ++ AutoDeploy.updatedCode 1700000000000 (lit " {}").
Proof.
  assert (decl_with [10; 9; 32; 32]%N (lit " {}")
            (drop 9 (lit "pragma;" ++ [10; 10]%N ++ lit "contract"
                     ++ [10; 9; 32; 32]%N ++ lit "CustomMortgageLoan {}"))) as H.
  { split_and!; [reflexivity|discriminate|repeat constructor|reflexivity]. }
  split; [exact H|].
  exact (proj1 (updatedCode_single_space 1700000000000 _ 9 _ _ H)).
Defined.

(* ================================================================= *)
(** * The address scrape *)

Lemma take_while_ge {A} (p : A -> bool) l r :
  Forall (fun c => p c = true) l ->
  take_while p (l ++ r) = l ++ take_while p r.
Proof.
  induction 1 as [|x l Hx Hl IH]; cbn [app take_while]; [done|].
  by rewrite Hx, IH.
Qed.

Lemma take_take_while {A} (p : A -> bool) l :
  take (length (take_while p l)) l = take_while p l.
Proof.
  induction l as [|x l IH]; cbn [take_while]; [done|].
  destruct (p x); [|done]. cbn [length take]. by rewrite IH.
Qed.

Lemma drop_while_stop_take {A} (p : A -> bool) l :
  match head l with Some x => p x = false | None => True end ->
  take_while p l = [].
Proof. destruct l as [|x l]; cbn [head take_while]; [done|]. by intros ->. Qed.

Lemma exec_address_None b s :
  address_prefix s = None -> exec_at AutoDeploy.address_re 1 b s = None.
Proof.
  unfold exec_at, AutoDeploy.address_re, address_prefix. cbn [matcher].
  rewrite matcher_lit_re. cbn [remaining consumed captures].
  destruct (strip_prefix (lit "contract address:") s) as [s1|]; [|done].
  destruct s1 as [|d t]; [done|]. cbn [take_while drop_while remaining].
  destruct (is_space d) eqn:Ed; [|done].
  rewrite star_cls_blocked; [|done|].
  - rewrite matcher_lit_re.
    cbn [after_run advance remaining consumed captures].
    destruct (strip_prefix (lit "0x") (drop_while is_space t)) as [s2|]; [|done].
    cbn [remaining]. destruct s2 as [|e t2]; [done|]. cbn [take_while].
    by destruct (is_hex e).
  - intros z c t' Hz Hc. rewrite matcher_lit_re, Hz.
    change (lit "0x") with [48; 120]%N. cbn [strip_prefix].
    destruct (N.eqb_spec 48 c) as [<-|]; [done|done].
Qed.

Lemma exec_address_Some b s a :
  address_prefix s = Some a ->
  exists y, exec_at AutoDeploy.address_re 1 b s = Some y
            /\ match_array s y !! 1 = Some (Some a).
Proof.
  unfold exec_at, AutoDeploy.address_re, address_prefix. cbn [matcher].
  rewrite matcher_lit_re. cbn [remaining consumed captures].
  destruct (strip_prefix (lit "contract address:") s) as [s1|]; [|done].
  destruct s1 as [|d t]; [done|]. cbn [take_while drop_while remaining].
  destruct (is_space d) eqn:Ed; [|done].
  rewrite star_cls_blocked; [|done|].
  - rewrite matcher_lit_re.
    cbn [after_run advance remaining consumed captures].
    destruct (strip_prefix (lit "0x") (drop_while is_space t)) as [s2|] eqn:E2;
      [|done].
    cbn [remaining]. destruct s2 as [|e t2]; [done|]. cbn [take_while].
    destruct (is_hex e) eqn:Ee; [|done]. intros [= <-].
    eexists. split.
    + apply star_cls_greedy; [done|]. reflexivity.
    + cbn [after_run advance remaining consumed captures match_array].
      apply strip_prefix_Some in E2. rewrite E2.
      change (lit "0x" ++ e :: t2) with (48 :: 120 :: e :: t2)%N.
      cbn [length].
      pose proof (take_drop_while is_hex t2) as Ht.
      assert (length t2 = length (take_while is_hex t2)
                          + length (drop_while is_hex t2)) as Hl
        by (by rewrite <- length_app, Ht).
      replace (S (S (S (length t2))) - length (drop_while is_hex t2))
        with (S (S (S (length (take_while is_hex t2))))) by lia.
      cbn [take]. rewrite take_take_while. reflexivity.
  - intros z c t' Hz Hc. rewrite matcher_lit_re, Hz.
    change (lit "0x") with [48; 120]%N. cbn [strip_prefix].
    destruct (N.eqb_spec 48 c) as [<-|]; [done|done].
Qed.

Lemma search_address s : forall b,
  match search AutoDeploy.address_re 1 b s with
  | Some arr => mjoin (arr !! 1)
  | None => None
  end = first_address s.
Proof.
  induction s as [|c t IH]; intros b; cbn [search first_address].
  - destruct (address_prefix []) as [a|] eqn:E.
    + destruct (exec_address_Some b [] a E) as (y & -> & ->). done.
    + by rewrite exec_address_None.
  - destruct (address_prefix (c :: t)) as [a|] eqn:E.
    + destruct (exec_address_Some b (c :: t) a E) as (y & -> & ->). done.
    + rewrite exec_address_None by done. apply IH.
Qed.

Lemma address_prefix_with s a :
  address_prefix s = Some a ->
  exists ws h rest, address_with ws h rest s /\ a = lit "0x" ++ h.
Proof.
  unfold address_prefix, address_with.
  destruct (strip_prefix (lit "contract address:") s) as [s1|] eqn:E1; [|done].
  destruct (take_while is_space s1) as [|w ws'] eqn:Ew; [done|].
  destruct (strip_prefix _ (drop_while is_space s1)) as [s2|] eqn:E2; [|done].
  destruct (take_while is_hex s2) as [|e h'] eqn:Eh; [done|].
  intros [= <-]. exists (w :: ws'), (e :: h'), (drop_while is_hex s2).
  split_and!; try done.
  - apply strip_prefix_Some in E1, E2.
    rewrite E1. f_equal.
    etrans; [symmetry; apply (take_drop_while is_space)|].
    rewrite Ew, E2. do 2 f_equal.
    etrans; [symmetry; apply (take_drop_while is_hex)|]. by rewrite Eh.
  - rewrite <- Ew. apply take_while_Forall.
  - rewrite <- Eh. apply take_while_Forall.
Qed.

Lemma address_with_prefix ws h rest s :
  address_with ws h rest s ->
  address_prefix s = Some (lit "0x" ++ h ++ take_while is_hex rest).
Proof.
  intros (-> & Hws & Hsp & Hh & Hhex). unfold address_prefix.
  rewrite strip_prefix_app.
  destruct (take_while_app_stop is_space ws (lit "0x" ++ h ++ rest))
    as [-> ->]; [done|done|].
  rewrite strip_prefix_app, (take_while_ge _ _ _ Hhex).
  destruct ws; [done|]. by destruct h.
Qed.

Lemma address_prefix_not_at s : address_prefix s = None <-> ~ address_at s.
Proof.
  split.
  - intros H (ws & h & rest & Hw).
    by rewrite (address_with_prefix _ _ _ _ Hw) in H.
  - intros H. destruct (address_prefix s) as [a|] eqn:E; [|done].
    destruct (address_prefix_with _ _ E) as (ws & h & rest & Hw & _).
    destruct H. by exists ws, h, rest.
Qed.

Lemma first_address_line s a : first_address s = Some a -> address_line s a.
Proof.
  induction s as [|c t IH]; cbn [first_address].
  - destruct (address_prefix []) as [a'|] eqn:E; [|done]. intros [= ->].
    destruct (address_prefix_with _ _ E) as (ws & h & rest & (Hs & ? & ? & ? & ?) & ->).
    exists [], ws, h, rest. by rewrite Hs, <- !app_assoc.
  - destruct (address_prefix (c :: t)) as [a'|] eqn:E.
    + intros [= ->].
      destruct (address_prefix_with _ _ E) as (ws & h & rest & (Hs & ? & ? & ? & ?) & ->).
      exists [], ws, h, rest. by rewrite Hs, <- !app_assoc.
    + intros H. destruct (IH H) as (pre & ws & h & rest & -> & ?).
      by exists (c :: pre), ws, h, rest.
Qed.



(** The first address of a text is at the first index where a line
    of the expected form starts, and runs as far as the hex digits do. *)
Lemma first_address_first pre : forall s ws h rest,
  s = pre ++ lit "contract address:" ++ ws ++ lit "0x" ++ h ++ rest ->
  ws <> [] -> all_space ws -> h <> [] -> all_hex h ->
  match head rest with Some c => is_hex c = false | None => True end ->
  (forall i, i < length pre -> ~ address_at (drop i s)) ->
  first_address s = Some (lit "0x" ++ h).
Proof.
  induction pre as [|c pre IH]; intros s ws h rest -> Hws Hsp Hh Hhex Hrest Hfirst.
  - cbn [app].
    assert (address_with ws h rest
              (lit "contract address:" ++ ws ++ lit "0x" ++ h ++ rest)) as Hw
      by done.
    apply address_with_prefix in Hw.
    rewrite (drop_while_stop_take is_hex rest Hrest), app_nil_r in Hw.
    destruct (lit "contract address:" ++ _) eqn:E; cbn [first_address];
      by rewrite Hw.
  - cbn [app first_address].
    assert (address_prefix
              (c :: pre ++ lit "contract address:" ++ ws ++ lit "0x" ++ h ++ rest)
            = None) as ->.
    { apply address_prefix_not_at. apply (Hfirst 0). simpl. lia. }
    apply (IH _ ws h rest); try done.
    intros i Hi. apply (Hfirst (S i)). simpl. lia.
Qed.

(* ================================================================= *)
(** * The callback of [exec] *)

Lemma exec_callback_ok r w :
  outcome r = Exited 0 ->
  (AutoDeploy.exec_callback r w).1
  = inl (match first_address (stdout r) with
         | Some a => Response 200 (address_body a)
         | None => Response 200 fallback_body
         end).
Proof.
  intros Ho. unfold AutoDeploy.exec_callback, exec_err. rewrite Ho.
  unfold js_match. rewrite search_address.
  destruct (first_address (stdout r)) as [a|] eqn:E.
  - destruct (first_address_line _ _ E) as (? & ? & h & ? & _ & -> & _).
    reflexivity.
  - reflexivity.
Qed.

Lemma exec_callback_err r w :
  outcome r <> Exited 0 ->
  AutoDeploy.exec_callback r w
  = (inl (Response 500 failure_body),
     World (files w) (dirs w)
       (console w ++ [(StdErr, [lit "[SERVER] Deployment error:"; stderr r])])).
Proof.
  intros Ho. unfold AutoDeploy.exec_callback, exec_err.
  destruct (outcome r) as [[|p]| |]; done.
Qed.



(** C10: when the toolchain exits with code 0, the address answered is
    the one of the first line of the expected form in the output, read
    as far as its hex digits run, whatever their number; and an
    address is answered only for a line that has whitespace between
    the colon and [0x]. *)
Theorem exec_callback_first_address (r : exec_result) (w : world) :
  outcome r = Exited 0 ->
  (forall pre ws h post,
      stdout r = pre ++ lit "contract address:" ++ ws ++ lit "0x" ++ h ++ post ->
      ws <> [] -> all_space ws -> h <> [] -> all_hex h ->
      match head post with Some c => is_hex c = false | None => True end ->
      (forall i, i < length pre -> ~ address_at (drop i (stdout r))) ->
      (AutoDeploy.exec_callback r w).1
      = inl (Response 200 (JObj [(lit "contractAddress", JStr (lit "0x" ++ h))])))
  /\ (forall a,
        (AutoDeploy.exec_callback r w).1
        = inl (Response 200 (JObj [(lit "contractAddress", JStr a)])) ->
        exists pre ws h post,
          stdout r = pre ++ lit "contract address:" ++ ws ++ a ++ post
          /\ a = lit "0x" ++ h /\ ws <> [] /\ all_space ws
          /\ h <> [] /\ all_hex h).
Proof.
  intros Ho. rewrite (exec_callback_ok r w Ho). split.
  - intros pre ws h post Hs Hws Hsp Hh Hhex Hpost Hfirst.
    by rewrite (first_address_first pre (stdout r) ws h post).
  - intros a. destruct (first_address (stdout r)) as [a'|] eqn:E; [|done].
    intros [= <-]. by apply first_address_line.
Qed.

Lemma exec_callback_first_address_witness :
  let r := ExecResult (Exited 0)
             (lit "contract address:0x1" ++ nl
              ++ lit "> contract address: " ++ [9%N] ++ lit "0xAbC123, gas" ++ nl
              ++ lit "> contract address: 0x2") [] in
  outcome r = Exited 0
  /\ (AutoDeploy.exec_callback r (World ∅ ∅ [])).1
     = inl (Response 200 (JObj [(lit "contractAddress", JStr (lit "0xAbC123"))])).
Proof.
  intros r. split; [reflexivity|].
  apply (proj1 (exec_callback_first_address r (World ∅ ∅ []) eq_refl)
           (lit "contract address:0x1" ++ nl ++ lit "> ")
           (lit " " ++ [9%N]) (lit "AbC123")
           (lit ", gas" ++ nl ++ lit "> contract address: 0x2")).
  - reflexivity.
  - discriminate.
  - repeat constructor.
  - discriminate.
  - repeat constructor.
  - reflexivity.
  - intros i Hi. apply address_prefix_not_at.
    do 23 (destruct i as [|i]; [reflexivity|]).
    exfalso. simpl in Hi. lia.
Defined.

(* ================================================================= *)
(** * Paths *)

Lemma split_slash_nonempty s : split_slash s <> [].
Proof.
  destruct s as [|c t]; cbn [split_slash]; [done|].
  destruct (N.eqb c slash); [done|]. by destruct (split_slash t).
Qed.

Lemma split_slash_plain seg : slash ∉ seg -> split_slash seg = [seg].
Proof.
  induction seg as [|c t IH]; cbn [split_slash]; [done|].
  rewrite not_elem_of_cons. intros [Hc Ht].
  destruct (N.eqb_spec c slash); [done|]. by rewrite IH.
Qed.

Lemma split_slash_app a b :
  split_slash (a ++ slash :: b) = split_slash a ++ split_slash b.
Proof.
  induction a as [|c a IH]; cbn [app split_slash].
  - by rewrite N.eqb_refl.
  - destruct (N.eqb c slash); [by rewrite IH|].
    rewrite IH. pose proof (split_slash_nonempty a).
    by destruct (split_slash a).
Qed.

Lemma join_slash_snoc segs seg :
  join_slash (segs ++ [seg])
  = match segs with [] => seg | _ => join_slash segs ++ slash :: seg end.
Proof.
  induction segs as [|s segs IH]; [done|].
  cbn [app join_slash]. rewrite IH.
  destruct segs as [|s' segs]; [done|].
  cbn [app]. by rewrite <- app_assoc.
Qed.

Lemma norm_step_plain allow stack seg :
  plain_segment seg -> norm_step allow stack seg = seg :: stack.
Proof.
  intros (H1 & _ & H2 & H3). unfold norm_step, jsstring_eqb.
  by rewrite !bool_decide_eq_false_2.
Qed.

Lemma plain_segment_last seg :
  plain_segment seg -> exists x, last seg = Some x /\ x <> slash.
Proof.
  intros (H1 & H2 & _).
  destruct (last seg) as [x|] eqn:E.
  - exists x. split; [done|]. intros ->. apply H2.
    by apply last_Some_elem_of.
  - by apply last_None in E.
Qed.

Lemma normalize_plain seg : plain_segment seg -> normalize seg = seg.
Proof.
  intros Hp. pose proof Hp as (H1 & H2 & _).
  destruct (plain_segment_last seg Hp) as (x & Hl & Hx).
  unfold normalize. destruct seg as [|c t] eqn:E; [done|]. rewrite <- E in *.
  assert (N.eqb c slash = false) as ->.
  { apply N.eqb_neq. intros ->. apply H2. rewrite E. by left. }
  rewrite Hl, split_slash_plain by done. cbn [fold_left negb].
  rewrite norm_step_plain by done. cbn [rev app join_slash].
  rewrite (proj2 (N.eqb_neq x slash) Hx).
  rewrite E at 1. by rewrite app_nil_r.
Qed.

Lemma path_join_plain d seg :
  plain_segment seg -> path_join [d; seg] = dir_prefix d ++ seg.
Proof.
  intros Hp. pose proof Hp as (H1 & H2 & _).
  destruct (plain_segment_last seg Hp) as (x & Hl & Hx).
  unfold path_join. rewrite !filter_cons, filter_nil.
  rewrite (decide_True (P := seg <> [])) by done.
  destruct (decide (d <> [])) as [Hd|Hd].
  - destruct d as [|c d']; [done|].
    unfold normalize, dir_prefix. cbn [join_slash app].
    change (c :: d' ++ slash :: seg) with ((c :: d') ++ slash :: seg).
    generalize (c :: d'). intros d.
    rewrite last_app, last_cons, Hl.
    rewrite (proj2 (N.eqb_neq x slash) Hx).
    rewrite split_slash_app, (split_slash_plain seg), fold_left_app by done.
    cbn [fold_left]. rewrite norm_step_plain by done.
    cbn [rev]. rewrite join_slash_snoc.
    destruct (rev (fold_left _ (split_slash d) [])) as [|s0 segs] eqn:Er.
    + destruct seg; [done|]. by rewrite !app_nil_r.
    + destruct (join_slash (s0 :: segs) ++ slash :: seg) eqn:Ej.
      { by destruct (join_slash (s0 :: segs)). }
      rewrite <- Ej. rewrite app_nil_r, <- !app_assoc. reflexivity.
  - assert (d = []) as -> by (destruct d; [done|by destruct Hd]).
    cbn [dir_prefix app join_slash]. by apply normalize_plain.
Qed.

(* ================================================================= *)
(** * Artifact names *)



Lemma contractName_no_slash ts : slash ∉ AutoDeploy.contractName ts.
Proof.
  unfold AutoDeploy.contractName. rewrite elem_of_app. intros [H|H].
  - by vm_compute in H; repeat (apply elem_of_cons in H as [H|H]; [done|]);
      apply elem_of_nil in H.
  - pose proof (number_to_string_chars ts) as Hc.
    rewrite Forall_forall in Hc. by apply Hc, numeral_char_not_slash in H.
Qed.

Lemma solFileName_plain ts : plain_segment (AutoDeploy.solFileName ts).
Proof.
  unfold plain_segment, AutoDeploy.solFileName. split_and!.
  - by destruct (AutoDeploy.contractName ts).
  - rewrite elem_of_app. intros [H|H]; [by apply contractName_no_slash in H|].
    by vm_compute in H; repeat (apply elem_of_cons in H as [H|H]; [done|]);
      apply elem_of_nil in H.
  - unfold AutoDeploy.contractName. done.
  - unfold AutoDeploy.contractName. done.
Qed.

Lemma migrationFileName_plain ts : plain_segment (AutoDeploy.migrationFileName ts).
Proof.
  unfold plain_segment, AutoDeploy.migrationFileName.
  pose proof (number_to_string_chars ts) as Hc.
  pose proof (number_to_string_nonempty ts) as Hn.
  destruct (number_to_string ts) as [|c t] eqn:E; [done|].
  apply Forall_cons in Hc as [Hc Ht].
  split_and!.
  - done.
  - rewrite <- E. rewrite !elem_of_app. intros [H|[H|[H|H]]].
    + pose proof (number_to_string_chars ts) as Hc'.
      rewrite Forall_forall in Hc'. by apply Hc', numeral_char_not_slash in H.
    + by vm_compute in H; repeat (apply elem_of_cons in H as [H|H]; [done|]);
        apply elem_of_nil in H.
    + by apply contractName_no_slash in H.
    + by vm_compute in H; repeat (apply elem_of_cons in H as [H|H]; [done|]);
        apply elem_of_nil in H.
  - destruct t; [|done]. done.
  - destruct t as [|c' [|]]; done.
Qed.



Lemma solFilePath_eq d ts :
  AutoDeploy.solFilePath d ts
  = dir_prefix (AutoDeploy.contractsDir d) ++ AutoDeploy.solFileName ts.
Proof. apply path_join_plain, solFileName_plain. Qed.

Lemma migrationFilePath_eq d ts :
  AutoDeploy.migrationFilePath d ts
  = dir_prefix (AutoDeploy.migrationsDir d) ++ AutoDeploy.migrationFileName ts.
Proof. apply path_join_plain, migrationFileName_plain. Qed.

Lemma sol_migration_paths_differ d t1 t2 :
  AutoDeploy.solFilePath d t1 <> AutoDeploy.migrationFilePath d t2.
Proof.
  rewrite solFilePath_eq, migrationFilePath_eq.
  unfold AutoDeploy.solFileName, AutoDeploy.migrationFileName.
  intros H. apply (f_equal last) in H.
  rewrite !app_assoc in H.
  change (lit ".sol") with ([46; 115; 111]%N ++ [108%N]) in H.
  change (lit ".js") with ([46; 106]%N ++ [115%N]) in H.
  rewrite !app_assoc, !last_snoc in H. done.
Qed.



(* ================================================================= *)
(** * The files of a request *)

Lemma write_artifacts_files d ts code w :
  (AutoDeploy.write_artifacts d ts code w).1 = inl tt
  /\ files (AutoDeploy.write_artifacts d ts code w).2
     = <[AutoDeploy.migrationFilePath d ts := AutoDeploy.migrationContent ts]>
         (<[AutoDeploy.solFilePath d ts := AutoDeploy.updatedCode ts code]> (files w)).
Proof.
  unfold AutoDeploy.write_artifacts, bind, existsSync, when, mkdirSync,
    writeFileSync, console_log, ret.
  cbn [fst snd files dirs console].
  repeat (match goal with |- context [negb ?b] => destruct b end;
          cbn [negb fst snd files dirs console]); done.
Qed.

(* ================================================================= *)
(** * The route *)

Lemma exec_callback_world r w :
  exists resp, (AutoDeploy.exec_callback r w).1 = inl resp
  /\ files (AutoDeploy.exec_callback r w).2 = files w.
Proof.
  unfold AutoDeploy.exec_callback.
  destruct (exec_err r); [by eexists|].
  unfold bind, console_log, console_error, ret. cbn [fst snd].
  destruct (falsy _); by eexists.
Qed.

(** Once the completion has come, the route writes the two files and
    answers what the callback answers. *)
Lemma handler_run ld d (openai : endpoint) ts truffle w content :
  openai (AutoDeploy.prompt ld) = inl content ->
  AutoDeploy.handler ld d openai ts truffle w
  = AutoDeploy.exec_callback truffle
      (AutoDeploy.write_artifacts d ts (stripMarkdownFences (trim content)) w).2.
Proof.
  intros Ho. unfold AutoDeploy.handler, try_catch, createChatCompletion.
  rewrite Ho. unfold bind at 1. unfold ret at 1. unfold bind at 1.
  destruct (write_artifacts_files d ts (stripMarkdownFences (trim content)) w)
    as [H1 _].
  destruct (AutoDeploy.write_artifacts d ts _ w) as [[[]|msg] w1] eqn:E;
    cbn [fst snd] in *; [|done].
  destruct (exec_callback_world truffle w1) as (resp & Hr & _).
  destruct (AutoDeploy.exec_callback truffle w1) as [[resp'|msg] w2];
    cbn [fst] in Hr; [done|done].
Qed.

Lemma handler_files ld d (openai : endpoint) ts truffle w content :
  openai (AutoDeploy.prompt ld) = inl content ->
  files (AutoDeploy.handler ld d openai ts truffle w).2
  = <[AutoDeploy.migrationFilePath d ts := AutoDeploy.migrationContent ts]>
      (<[AutoDeploy.solFilePath d ts
         := AutoDeploy.updatedCode ts (stripMarkdownFences (trim content))]>
         (files w)).
Proof.
  intros Ho. rewrite (handler_run _ _ _ _ _ _ _ Ho).
  destruct (exec_callback_world truffle
              (AutoDeploy.write_artifacts d ts
                 (stripMarkdownFences (trim content)) w).2) as (resp & _ & ->).
  apply write_artifacts_files.
Qed.

(** C4: when the toolchain does not exit with code 0 (a non-zero exit
    code, a signal, or no process at all), the answer is 500 with the
    fixed message, the captured stderr goes to the console, and the
    output of the toolchain plays no part: any other output gives the
    same answer and the same world.  The route as a whole answers that
    way once the completion has come. *)
Theorem exec_callback_failure (r : exec_result) (w : world) :
  outcome r <> Exited 0 ->
  (AutoDeploy.exec_callback r w).1
  = inl (Response 500
           (JObj [(lit "error", JStr (lit "Failed to compile or deploy contract"))]))
  /\ console (AutoDeploy.exec_callback r w).2
     = console w ++ [(StdErr, [lit "[SERVER] Deployment error:"; stderr r])]
  /\ (forall out,
        AutoDeploy.exec_callback (with_stdout out r) w
        = AutoDeploy.exec_callback r w)
  /\ (forall ld d (openai : endpoint) ts content,
        openai (AutoDeploy.prompt ld) = inl content ->
        (AutoDeploy.handler ld d openai ts r w).1
        = inl (Response 500
                 (JObj [(lit "error",
                         JStr (lit "Failed to compile or deploy contract"))]))).
Proof.
  intros Ho. split_and!.
  - by rewrite exec_callback_err.
  - by rewrite exec_callback_err.
  - intros out. by rewrite !exec_callback_err.
  - intros ld d openai ts content Hc.
    rewrite (handler_run _ _ _ _ _ _ _ Hc). by rewrite exec_callback_err.
Qed.

Lemma exec_callback_failure_witness :
  let r := ExecResult (Exited 1)
             (lit "> contract address: 0xabc123") (lit "Error: out of gas") in
  outcome r <> Exited 0
  /\ (AutoDeploy.exec_callback r (World ∅ ∅ [])).1
     = inl (Response 500
              (JObj [(lit "error", JStr (lit "Failed to compile or deploy contract"))])).
Proof.
  intros r.
  assert (outcome r <> Exited 0) as H by discriminate.
  split; [exact H|].
  exact (proj1 (exec_callback_failure r (World ∅ ∅ []) H)).
Defined.





(* ================================================================= *)
(** * The prompts *)







(* ================================================================= *)
(** * More on the fence stripper *)

Lemma drop_while_fixed {A} (p : A -> bool) l :
  drop_while p l = l ->
  match head l with Some x => p x = false | None => True end.
Proof.
  destruct l as [|x l]; cbn [drop_while head]; [done|].
  destruct (p x); [|done]. intros H.
  pose proof (drop_while_length p l) as Hl. rewrite H in Hl. simpl in Hl. lia.
Qed.

Lemma last_rev_head {A} (l : list A) : last (rev l) = head l.
Proof.
  destruct l as [|x l]; [done|]. cbn [rev head]. by rewrite last_snoc.
Qed.

Lemma trim_head s c : head (trim s) = Some c -> is_space c = false.
Proof.
  intros H.
  pose proof (drop_while_fixed is_space (trim s)) as Hf.
  rewrite H in Hf. apply Hf.
  unfold trim. apply (trimStart_trimEnd (trimStart s)), drop_while_idemp.
Qed.

Lemma trim_last s c : last (trim s) = Some c -> is_space c = false.
Proof.
  unfold trim, trimEnd. rewrite last_rev_head.
  intros H. pose proof (drop_while_fixed is_space
                          (drop_while is_space (rev (trimStart s)))) as Hf.
  rewrite H in Hf. apply Hf, drop_while_idemp.
Qed.

(** X1: what [stripMarkdownFences] returns neither starts nor ends
    with whitespace. *)
Theorem stripMarkdownFences_trimmed (x : jsstring) :
  (forall c, head (stripMarkdownFences x) = Some c -> is_space c = false)
  /\ (forall c, last (stripMarkdownFences x) = Some c -> is_space c = false).
Proof.
  unfold stripMarkdownFences. split; intros c.
  - apply trim_head.
  - apply trim_last.
Qed.

(** A replacement by the empty text only takes code units away. *)
Lemma replace_empty_sublist re g : forall s b n,
  replace_from re g [] b s n `sublist_of` s.
Proof.
  induction s as [|c t IH]; intros b n; cbn [replace_from get_substitution].
  - destruct n; [|done]. by destruct (exec_at re g b []).
  - destruct n as [|n]; [|by apply sublist_cons].
    destruct (exec_at re g b (c :: t)) as [y|]; [|by apply sublist_skip].
    cbn [app]. destruct (length (c :: t) - length (remaining y)).
    + by apply sublist_skip.
    + by apply sublist_cons.
Qed.

Lemma infix_of_sublist a s : infix_of a s -> a `sublist_of` s.
Proof.
  intros (pre & post & ->). apply sublist_inserts_l, sublist_inserts_r. done.
Qed.

(** X2: [stripMarkdownFences] only takes code units away: what it
    returns is what is left of the input when some code units are
    struck out, in the order of the input, and is no longer than it. *)
Theorem stripMarkdownFences_sublist (x : jsstring) :
  stripMarkdownFences x `sublist_of` x
  /\ length (stripMarkdownFences x) <= length x.
Proof.
  assert (stripMarkdownFences x `sublist_of` x) as H.
  { unfold stripMarkdownFences, replace_all.
    etrans; [apply infix_of_sublist, trim_infix|].
    etrans; apply replace_empty_sublist. }
  split; [done|]. by apply sublist_length.
Qed.

(** X3: a text without three backticks in a row is only trimmed. *)
Theorem stripMarkdownFences_plain_text (y : jsstring) :
  ~ infix_of (lit "```") y -> stripMarkdownFences y = trim y.
Proof. intros H. by apply stripMarkdownFences_clean, includes_false. Qed.

Lemma stripMarkdownFences_plain_text_witness :
  ~ infix_of (lit "```") (nl ++ lit "  uint `x`; ``y`` " ++ nl)
  /\ stripMarkdownFences (nl ++ lit "  uint `x`; ``y`` " ++ nl)
     = lit "uint `x`; ``y``".
Proof.
  assert (~ infix_of (lit "```") (nl ++ lit "  uint `x`; ``y`` " ++ nl)) as H
    by (by apply includes_false).
  split; [exact H|].
  rewrite (stripMarkdownFences_plain_text _ H). reflexivity.
Defined.

(** ** How the two replacements pass over text around the fences *)

Lemma space_not_backtick c : is_space c = true -> N.eqb 96 c = false.
Proof. intros H. destruct (N.eqb_spec 96 c) as [<-|]; done. Qed.

Lemma space_not_word c : is_space c = true -> is_word c = false.
Proof.
  intros Hs. destruct (is_word c) eqn:Hw; [|done]. exfalso. revert Hs Hw.
  unfold is_space, is_word, between.
  rewrite !orb_true_iff, !andb_true_iff, !N.leb_le, !N.eqb_eq. lia.
Qed.

Lemma lead_app_stop s v :
  match head v with Some c => N.eqb 96 c = false | None => True end ->
  lead (s ++ v) = lead s.
Proof.
  intros Hv. unfold lead. induction s as [|c s IH]; cbn [app take_while].
  - by rewrite (drop_while_stop_take _ v Hv).
  - destruct (N.eqb 96 c); [|done]. cbn [length]. by rewrite IH.
Qed.

Section FenceReplace.

Variable re : regex.
Variable g : nat.
Hypothesis re_fence : forall b s,
  strip_prefix (lit "```") s = None -> exec_at re g b s = None.

(** Text without a fence, followed by something that starts with no
    backtick, is copied. *)
Lemma replace_app_clean u : forall b v,
  includes (lit "```") u = false ->
  match head v with Some c => N.eqb 96 c = false | None => True end ->
  replace_from re g [] b (u ++ v) 0
  = u ++ replace_from re g [] (rev u ++ b) v 0.
Proof using re_fence.
  induction u as [|c u IH]; intros b v Hu Hv; [done|].
  rewrite includes_unfold in Hu.
  destruct (strip_prefix (lit "```") (c :: u)) eqn:E; [done|].
  cbn [app]. rewrite replace_from_nomatch.
  - rewrite IH by done. by rewrite rev_cons_app.
  - apply re_fence. apply strip_prefix_fence_lead.
    change (c :: u ++ v) with ((c :: u) ++ v). rewrite lead_app_stop by done.
    by apply strip_prefix_fence_lead.
Qed.

Lemma replace_app_space ws : forall b s,
  all_space ws ->
  replace_from re g [] b (ws ++ s) 0
  = ws ++ replace_from re g [] (rev ws ++ b) s 0.
Proof using re_fence.
  induction ws as [|c ws IH]; intros b s Hws; [done|].
  apply Forall_cons in Hws as [Hc Hws].
  cbn [app]. rewrite replace_from_nomatch.
  - rewrite IH by done. by rewrite rev_cons_app.
  - apply re_fence. rewrite fence_lit. cbn [strip_prefix].
    by rewrite (space_not_backtick c Hc).
Qed.

End FenceReplace.

Lemma word_run_app_space t ws :
  all_space ws ->
  take_while is_word (t ++ ws) = take_while is_word t
  /\ drop_while is_word (t ++ ws) = drop_while is_word t ++ ws.
Proof.
  intros Hws. induction t as [|c t [IH1 IH2]]; cbn [app take_while drop_while].
  - destruct Hws as [|w ws Hw Hws]; [done|]. cbn [take_while drop_while].
    by rewrite (space_not_word w Hw).
  - destruct (is_word c); [|done]. by rewrite IH1, IH2.
Qed.

Lemma replace_fence_open_match b t :
  replace_from fence_open_re 1 [] b (lit "```" ++ t) 0
  = replace_from fence_open_re 1 []
      (rev (lit "```" ++ take_while is_word t) ++ b) (drop_while is_word t) 0.
Proof.
  destruct (exec_fence_open_Some b (lit "```" ++ t) t) as (y & Hy & Hr);
    [apply strip_prefix_app|].
  rewrite <- (take_drop_while is_word t) in Hy at 1.
  rewrite <- (take_drop_while is_word t) at 1.
  rewrite app_assoc in Hy |- *.
  by rewrite (replace_from_match _ _ _ _ _ _ y).
Qed.

Lemma replace_fence_open_nil b : replace_from fence_open_re 1 [] b [] 0 = [].
Proof. by apply replace_from_nil, exec_fence_open_None. Qed.

Lemma replace_fence_open_space ws b :
  all_space ws -> replace_from fence_open_re 1 [] b ws 0 = ws.
Proof.
  intros Hws. rewrite <- (app_nil_r ws) at 1.
  rewrite (replace_app_space _ _ exec_fence_open_None) by done.
  by rewrite replace_fence_open_nil, app_nil_r.
Qed.

(** Whitespace after the text stays where it is. *)
Lemma replace_fence_open_snoc_space ws n : forall s b,
  length s <= n -> all_space ws ->
  replace_from fence_open_re 1 [] b (s ++ ws) 0
  = replace_from fence_open_re 1 [] b s 0 ++ ws.
Proof.
  induction n as [|n IH]; intros s b Hn Hws.
  - destruct s; [|simpl in Hn; lia]. cbn [app].
    by rewrite replace_fence_open_space, replace_fence_open_nil.
  - destruct (strip_prefix (lit "```") s) as [t|] eqn:E.
    + apply strip_prefix_Some in E. subst s. rewrite <- app_assoc.
      rewrite !replace_fence_open_match.
      destruct (word_run_app_space t ws Hws) as [-> ->].
      apply IH; [|done].
      pose proof (drop_while_length is_word t). rewrite length_app in Hn.
      change (length (lit "```")) with 3 in Hn. lia.
    + destruct s as [|c t].
      { cbn [app]. by rewrite replace_fence_open_space, replace_fence_open_nil. }
      cbn [app]. rewrite !replace_from_nomatch.
      * cbn [app]. f_equal. apply IH; [simpl in Hn; lia|done].
      * by apply exec_fence_open_None.
      * apply exec_fence_open_None, strip_prefix_fence_lead.
        change (c :: t ++ ws) with ((c :: t) ++ ws).
        rewrite lead_app_stop; [by apply strip_prefix_fence_lead|].
        destruct Hws as [|w ws Hw _]; [done|]. by apply space_not_backtick.
Qed.

Lemma replace_fence_open_before n : forall s b b',
  length s <= n ->
  replace_from fence_open_re 1 [] b s 0 = replace_from fence_open_re 1 [] b' s 0.
Proof.
  induction n as [|n IH]; intros s b b' Hn.
  - destruct s; [|simpl in Hn; lia]. by rewrite !replace_fence_open_nil.
  - destruct (strip_prefix (lit "```") s) as [t|] eqn:E.
    + apply strip_prefix_Some in E. subst s.
      rewrite !replace_fence_open_match. apply IH.
      pose proof (drop_while_length is_word t). rewrite length_app in Hn.
      change (length (lit "```")) with 3 in Hn. lia.
    + destruct s as [|c t]; [by rewrite !replace_fence_open_nil|].
      rewrite !replace_from_nomatch by by apply exec_fence_open_None.
      f_equal. apply IH. simpl in Hn. lia.
Qed.

Lemma drop_while_all {A} (p : A -> bool) l :
  Forall (fun c => p c = true) l -> drop_while p l = [].
Proof. induction 1 as [|x l Hx _ IH]; cbn [drop_while]; [done|]. by rewrite Hx. Qed.

Lemma drop_while_app_all {A} (p : A -> bool) l r :
  Forall (fun c => p c = true) l -> drop_while p (l ++ r) = drop_while p r.
Proof. induction 1 as [|x l Hx _ IH]; cbn [app drop_while]; [done|]. by rewrite Hx. Qed.

Lemma drop_while_app {A} (p : A -> bool) l r :
  drop_while p (l ++ r)
  = match drop_while p l with [] => drop_while p r | k => k ++ r end.
Proof.
  induction l as [|x l IH]; cbn [app drop_while].
  - by destruct (drop_while p r).
  - destruct (p x); [apply IH|done].
Qed.

Lemma trimEnd_app_space y ws : all_space ws -> trimEnd (y ++ ws) = trimEnd y.
Proof.
  intros Hws. unfold trimEnd. rewrite rev_app_distr.
  rewrite drop_while_app_all; [done|]. by apply Forall_rev.
Qed.

Lemma trim_app_space ws1 x ws2 :
  all_space ws1 -> all_space ws2 -> trim (ws1 ++ x ++ ws2) = trim x.
Proof.
  intros H1 H2. unfold trim, trimStart.
  rewrite drop_while_app_all by done. rewrite drop_while_app.
  destruct (drop_while is_space x) as [|c k] eqn:E.
  - by rewrite drop_while_all.
  - by apply trimEnd_app_space.
Qed.

Lemma trim_split s :
  exists ws1 ws2, all_space ws1 /\ all_space ws2 /\ s = ws1 ++ trim s ++ ws2.
Proof.
  exists (take_while is_space s), (rev (take_while is_space (rev (trimStart s)))).
  split_and!.
  - apply take_while_Forall.
  - apply Forall_rev, take_while_Forall.
  - unfold trim. rewrite <- trimEnd_split. unfold trimStart.
    by rewrite take_drop_while.
Qed.

Lemma stripMarkdownFences_trim_absorbed s :
  stripMarkdownFences (trim s) = stripMarkdownFences s.
Proof.
  destruct (trim_split s) as (ws1 & ws2 & H1 & H2 & Hs).
  assert (forall z, stripMarkdownFences z = trim (replace_all fence_open_re 1 [] z))
    as Hstrip.
  { intros z. unfold stripMarkdownFences. f_equal. unfold replace_all at 1.
    apply (replace_no_fence _ _ _ _ exec_fence_bare_None),
      replace_fence_open_no_fence. }
  rewrite !Hstrip. rewrite Hs at 2. unfold replace_all.
  rewrite (replace_app_space _ _ exec_fence_open_None) by done.
  rewrite (replace_fence_open_snoc_space ws2 (length (trim s))) by done.
  rewrite trim_app_space by done.
  f_equal. apply (replace_fence_open_before (length (trim s))). done.
Qed.

(** X5: trimming the text first changes nothing: the [trim()] the
    routes apply to the completion before they strip it is absorbed. *)
Theorem stripMarkdownFences_trim (s : jsstring) :
  stripMarkdownFences (trim s) = stripMarkdownFences s.
Proof. apply stripMarkdownFences_trim_absorbed. Qed.

(** X4: a block between an opening fence with a language tag (or none)
    and a closing fence, each on a line of its own, comes out as the
    block without the whitespace around it. *)
Theorem stripMarkdownFences_fenced_block (tag ws1 body ws2 : jsstring) :
  Forall (fun c => is_word c = true) tag ->
  all_space ws1 -> ws1 <> [] -> all_space ws2 -> ws2 <> [] ->
  ~ infix_of (lit "```") body ->
  stripMarkdownFences (lit "```" ++ tag ++ ws1 ++ body ++ ws2 ++ lit "```")
  = trim body.
Proof.
  intros Htag H1 Hne1 H2 Hne2 Hbody. apply includes_false in Hbody.
  assert (match head (ws2 ++ lit "```") with
          | Some c => N.eqb 96 c = false | None => True end) as Hv.
  { destruct H2 as [|w ws Hw _]; [done|]. by apply space_not_backtick. }
  assert (match head ws2 with
          | Some c => N.eqb 96 c = false | None => True end) as Hv2.
  { destruct H2 as [|w ws Hw _]; [done|]. by apply space_not_backtick. }
  assert (replace_all fence_open_re 1 []
            (lit "```" ++ tag ++ ws1 ++ body ++ ws2 ++ lit "```")
          = ws1 ++ body ++ ws2) as Hopen.
  { unfold replace_all. rewrite replace_fence_open_match.
    destruct (take_while_app_stop is_word tag
                (ws1 ++ body ++ ws2 ++ lit "```")) as [-> ->]; [done| |].
    { destruct H1 as [|w ws Hw _]; [done|]. by apply space_not_word. }
    rewrite (replace_app_space _ _ exec_fence_open_None) by done.
    rewrite (replace_app_clean _ _ exec_fence_open_None) by done.
    rewrite (replace_app_space _ _ exec_fence_open_None) by done.
    rewrite <- (app_nil_r (lit "```")), replace_fence_open_match.
    cbn [take_while drop_while]. rewrite replace_fence_open_nil.
    by rewrite !app_nil_r. }
  assert (replace_all fence_bare_re 0 [] (ws1 ++ body ++ ws2) = ws1 ++ body ++ ws2)
    as Hbare.
  { unfold replace_all.
    rewrite (replace_app_space _ _ exec_fence_bare_None) by done.
    rewrite (replace_app_clean _ _ exec_fence_bare_None) by done.
    rewrite <- (app_nil_r ws2) at 1.
    rewrite (replace_app_space _ _ exec_fence_bare_None) by done.
    rewrite replace_from_nil by by apply exec_fence_bare_None.
    by rewrite !app_nil_r. }
  unfold stripMarkdownFences. rewrite Hopen, Hbare. by apply trim_app_space.
Qed.

Lemma stripMarkdownFences_fenced_block_witness :
  Forall (fun c => is_word c = true) (lit "solidity")
  /\ all_space nl /\ nl <> []
  /\ ~ infix_of (lit "```") (lit "contract C { string s = '``'; }")
  /\ stripMarkdownFences
       (lit "```" ++ lit "solidity" ++ nl
        ++ lit "contract C { string s = '``'; }" ++ nl ++ lit "```")
     = lit "contract C { string s = '``'; }".
Proof.
  assert (Forall (fun c => is_word c = true) (lit "solidity")) as Ht
    by (by repeat constructor).
  assert (all_space nl) as Hs by (by repeat constructor).
  assert (nl <> []) as Hn by discriminate.
  assert (~ infix_of (lit "```") (lit "contract C { string s = '``'; }")) as Hb
    by (by apply includes_false).
  split_and!; [done..|].
  rewrite (stripMarkdownFences_fenced_block _ _ _ _ Ht Hs Hn Hs Hn Hb).
  reflexivity.
Defined.

(* ================================================================= *)
(** * More on the routes *)


Lemma handler_fail ld d (openai : endpoint) ts truffle w msg :
  openai (AutoDeploy.prompt ld) = inr msg ->
  AutoDeploy.handler ld d openai ts truffle w
  = (inl (Response 500 (error_body msg)),
     World (files w) (dirs w)
       (console w ++ [(StdErr, [lit "[SERVER] Error in auto-deploy route:"; msg])])).
Proof.
  intros Ho. unfold AutoDeploy.handler, try_catch, createChatCompletion.
  rewrite Ho. reflexivity.
Qed.

(** X6: when the completion request of [/auto-deploy] fails, the route
    answers 500 with the message of the error, logs it, and stops
    there: no file is written, no directory is made, and neither the
    clock nor the toolchain plays a part. *)
Theorem auto_deploy_completion_failure (ld : LoanRecord) (dirname : jsstring)
    (openai : endpoint) (timestamp : Z) (truffle : exec_result) (w : world)
    (msg : jsstring) :
  openai (AutoDeploy.prompt ld) = inr msg ->
  AutoDeploy.handler ld dirname openai timestamp truffle w
  = (inl (Response 500 (JObj [(lit "error", JStr msg)])),
     World (files w) (dirs w)
       (console w ++ [(StdErr, [lit "[SERVER] Error in auto-deploy route:"; msg])])).
Proof. apply handler_fail. Qed.

Lemma auto_deploy_completion_failure_witness :
  let openai : endpoint := fun _ => inr (lit "Request failed with status code 429") in
  openai (AutoDeploy.prompt loanData) = inr (lit "Request failed with status code 429")
  /\ (AutoDeploy.handler loanData (lit "/srv/app") openai 1700000000000
        (ExecResult (Exited 0) (lit "contract address: 0x1") []) (World ∅ ∅ [])).1
     = inl (Response 500
              (JObj [(lit "error", JStr (lit "Request failed with status code 429"))])).
Proof.
  intros openai. split; [reflexivity|].
  by rewrite (auto_deploy_completion_failure loanData (lit "/srv/app") openai
                1700000000000 _ (World ∅ ∅ []) _ eq_refl).
Defined.



(** X8: [/generate-prompt] never touches files or directories.  When
    the completion comes it answers 200 with the prompt and the
    stripped completion and logs nothing; when the request fails it
    answers 500 with the message of the error and logs it. *)
Theorem generate_prompt_route (ld : LoanRecord) (openai : endpoint) (w : world) :
  files (GeneratePrompt.handler ld openai w).2 = files w
  /\ dirs (GeneratePrompt.handler ld openai w).2 = dirs w
  /\ match openai (GeneratePrompt.prompt ld) with
     | inl content =>
         GeneratePrompt.handler ld openai w
         = (inl (Response 200
                   (JObj [(lit "prompt", JStr (GeneratePrompt.prompt ld));
                          (lit "generatedCode",
                           JStr (stripMarkdownFences content))])), w)
     | inr msg =>
         GeneratePrompt.handler ld openai w
         = (inl (Response 500 (JObj [(lit "error", JStr msg)])),
            World (files w) (dirs w)
              (console w ++ [(StdErr, [lit "Error:"; msg])]))
     end.
Proof.
  unfold GeneratePrompt.handler, try_catch, createChatCompletion.
  destruct (openai (GeneratePrompt.prompt ld)) as [content|msg].
  - unfold bind, ret. cbn [fst snd]. by rewrite stripMarkdownFences_trim_absorbed.
  - done.
Qed.



#[local] Set Warnings "-clear-no-such-hyp".












(** Inside the text of a declaration the keyword does not start again. *)
Lemma decl_no_keyword_inside s ws rest i :
  decl_with ws rest s -> 0 < i < 26 + length ws ->
  strip_prefix (lit "contract") (drop i s) = None.
Proof.
  intros (-> & Hne & Hws & Hr) Hi.
  destruct (decide (i < 8)) as [H8|H8].
  { rewrite contract_lit.
    do 8 (destruct i as [|i]; [(lia || reflexivity)|]). lia. }
  rewrite drop_app_ge by (rewrite contract_lit; simpl; lia).
  change (length (lit "contract")) with 8.
  destruct (decide (i - 8 < length ws)) as [Hw|Hw].
  { rewrite drop_app_le by lia.
    destruct (drop (i - 8) ws) as [|c ws'] eqn:Ed.
    { apply (f_equal length) in Ed. rewrite length_drop in Ed. simpl in Ed. lia. }
    assert (is_space c = true) as Hc.
    { apply (Forall_lookup_1 _ _ (i - 8) _ Hws).
      rewrite <- (Nat.add_0_r (i - 8)), <- lookup_drop, Ed. done. }
    rewrite contract_lit. cbn [app strip_prefix].
    destruct (N.eqb_spec 99 c) as [<-|]; [done|done]. }
  rewrite drop_app_ge by lia. rewrite name_lit, contract_lit.
  remember (i - 8 - length ws) as j eqn:Hj.
  do 18 (destruct j as [|j]; [reflexivity|]). lia.
Qed.

(** The replacement text is no declaration of the generated contract:
    the name goes on with [_]. *)
Lemma replacement_not_decl ts y :
  decl_prefix ((lit "contract " ++ AutoDeploy.contractName ts) ++ y) = None.
Proof. reflexivity. Qed.

Lemma replacement_length ts :
  length (lit "contract " ++ AutoDeploy.contractName ts)
  = 28 + length (number_to_string ts).
Proof. reflexivity. Qed.

Lemma numeral_char_not_c c : numeral_char c -> c <> 99%N.
Proof. intros [H| ->]; [|done]. by intros ->. Qed.

(** Nor does the keyword start inside the replacement text. *)
Lemma replacement_no_keyword_inside ts y i :
  0 < i < 28 + length (number_to_string ts) ->
  strip_prefix (lit "contract")
    (drop i ((lit "contract " ++ AutoDeploy.contractName ts) ++ y)) = None.
Proof.
  intros Hi.
  destruct (decide (i < 28)) as [H28|H28].
  { do 28 (destruct i as [|i]; [(lia || reflexivity)|]). lia. }
  change ((lit "contract " ++ AutoDeploy.contractName ts) ++ y)
    with ((lit "contract " ++ lit "CustomMortgageLoan_")
          ++ number_to_string ts ++ y).
  rewrite drop_app_ge by (simpl; lia).
  change (length (lit "contract " ++ lit "CustomMortgageLoan_")) with 28.
  rewrite drop_app_le by lia.
  destruct (drop (i - 28) (number_to_string ts)) as [|c r] eqn:Ed.
  { apply (f_equal length) in Ed. rewrite length_drop in Ed. simpl in Ed. lia. }
  assert (numeral_char c) as Hc.
  { apply (Forall_lookup_1 _ _ (i - 28) _ (number_to_string_chars ts)).
    rewrite <- (Nat.add_0_r (i - 28)), <- lookup_drop, Ed. done. }
  apply numeral_char_not_c in Hc.
  rewrite contract_lit. cbn [app strip_prefix].
  by destruct (N.eqb_spec 99 c).
Qed.

Lemma decl_prefix_keyword s :
  strip_prefix (lit "contract") s = None -> decl_prefix s = None.
Proof. intros H. unfold decl_prefix. by rewrite H. Qed.

Lemma strip_prefix_keyword_replacement ts y :
  strip_prefix (lit "contract")
    ((lit "contract " ++ AutoDeploy.contractName ts) ++ y) <> None.
Proof. done. Qed.

(** A declaration that starts in front of the replacement text and
    reaches into it would have the keyword where the replacement
    starts, or end just before it. *)
Lemma no_decl_across_replacement ts p s ws rest y :
  decl_with ws rest s ->
  decl_prefix (p ++ s) = None ->
  decl_prefix (p ++ (lit "contract " ++ AutoDeploy.contractName ts) ++ y) = None.
Proof.
  intros Hs Hp.
  destruct (decl_prefix (p ++ _ ++ y)) as [[ws' r']|] eqn:E; [exfalso|done].
  apply decl_prefix_with in E.
  pose proof E as (Heq & Hne' & Hws' & Hr').
  rewrite !(app_assoc _ _ r') in Heq.
  apply app_eq_inv in Heq as [(k & Hk & Hy)|(k & Hk & Hy)].
  - (* the replacement starts at or after the end of the declaration *)
    subst p r'. destruct k as [|c k].
    + by change (true = false) in Hr'.
    + cbn [app head] in Hr'.
      assert (decl_with ws' ((c :: k) ++ s)
                (lit "contract" ++ ws' ++ lit "CustomMortgageLoan"
                 ++ (c :: k) ++ s)) as Hd by done.
      apply decl_prefix_with in Hd. rewrite <- !app_assoc in Hp.
      by rewrite Hp in Hd.
  - (* the replacement starts inside the declaration *)
    destruct p as [|c p].
    { cbn [app] in E. apply decl_prefix_with in E.
      by rewrite replacement_not_decl in E. }
    destruct k as [|c' k].
    { cbn [app] in Hy. subst r'. by change (true = false) in Hr'. }
    pose proof (decl_no_keyword_inside _ ws' r' (length (c :: p)) E) as Hin.
    rewrite drop_app_length in Hin.
    apply (strip_prefix_keyword_replacement ts y), Hin.
    apply (f_equal length) in Hk.
    rewrite !length_app, contract_lit, name_lit in Hk. simpl in Hk |- *. lia.
Qed.

(** The rewrite creates no declaration: a text in front of which there
    was none has none after the rewrite either. *)
Lemma rewrite_no_new_decl ts n : forall s b p,
  length s <= n ->
  decl_prefix (p ++ s) = None ->
  decl_prefix
    (p ++ replace_from AutoDeploy.contract_decl_re 0
            (lit "contract " ++ AutoDeploy.contractName ts) b s 0) = None.
Proof.
  induction n as [|n IH]; intros s b p Hn Hp.
  - destruct s; [|simpl in Hn; lia]. by rewrite rewrite_nil.
  - destruct (decl_prefix s) as [[ws rest]|] eqn:E.
    + apply decl_prefix_with in E.
      destruct (rewrite_decl ts b ws rest s E) as (b' & ->).
      rewrite (app_assoc (lit "contract ")).
      by apply (no_decl_across_replacement ts p s ws rest).
    + destruct s as [|c t]; [by rewrite rewrite_nil|].
      rewrite rewrite_keep by done.
      rewrite cons_middle, app_assoc. apply IH; [simpl in Hn; lia|].
      by rewrite <- app_assoc.
Qed.

(** After the rewrite no declaration of the generated contract is left
    at any index. *)
Lemma rewrite_leaves_no_decl ts n : forall s b i,
  length s <= n ->
  decl_prefix
    (drop i (replace_from AutoDeploy.contract_decl_re 0
               (lit "contract " ++ AutoDeploy.contractName ts) b s 0)) = None.
Proof.
  induction n as [|n IH]; intros s b i Hn.
  - destruct s; [|simpl in Hn; lia]. rewrite rewrite_nil. by rewrite drop_nil.
  - destruct (decl_prefix s) as [[ws rest]|] eqn:E.
    + apply decl_prefix_with in E.
      destruct (rewrite_decl ts b ws rest s E) as (b' & ->).
      pose proof (decl_with_length _ _ _ E) as Hl.
      rewrite (app_assoc (lit "contract ")).
      destruct (decide (i = 0)) as [->|H0].
      { apply replacement_not_decl. }
      destruct (decide (i < 28 + length (number_to_string ts))) as [Hi|Hi].
      { apply decl_prefix_keyword, replacement_no_keyword_inside. lia. }
      rewrite drop_app_ge by (rewrite replacement_length; lia).
      apply IH. lia.
    + destruct s as [|c t]; [rewrite rewrite_nil; by rewrite drop_nil|].
      rewrite rewrite_keep by done.
      destruct i as [|i].
      * apply (rewrite_no_new_decl ts n t (c :: b) [c]); [simpl in Hn; lia|done].
      * cbn [drop]. apply IH. simpl in Hn; lia.
Qed.

(** A text without a declaration is left as it is. *)
Lemma rewrite_without_decl ts : forall s b,
  (forall i, decl_prefix (drop i s) = None) ->
  replace_from AutoDeploy.contract_decl_re 0
    (lit "contract " ++ AutoDeploy.contractName ts) b s 0 = s.
Proof.
  induction s as [|c t IH]; intros b H; [by rewrite rewrite_nil|].
  rewrite rewrite_keep by apply (H 0).
  f_equal. apply IH. intros i. apply (H (S i)).
Qed.

(** X12: the rewrite of the declarations leaves no declaration of
    [CustomMortgageLoan] behind, so a second rewrite, with the same or
    another timestamp, changes nothing: the name a request gives its
    contract is never renamed again. *)
Theorem updatedCode_idempotent (timestamp timestamp' : Z) (solidityCode : jsstring) :
  (forall i, ~ decl_at (drop i (AutoDeploy.updatedCode timestamp solidityCode)))
  /\ AutoDeploy.updatedCode timestamp'
       (AutoDeploy.updatedCode timestamp solidityCode)
     = AutoDeploy.updatedCode timestamp solidityCode.
Proof.
  assert (forall i, decl_prefix
            (drop i (AutoDeploy.updatedCode timestamp solidityCode)) = None) as H.
  { intros i. by apply (rewrite_leaves_no_decl timestamp (length solidityCode)). }
  split.
  - intros i. apply decl_prefix_not_at, H.
  - by apply rewrite_without_decl.
Qed.

Lemma pretty_N_go_digits x : forall s,
  Forall (fun c => is_digit c = true) (lit s) ->
  Forall (fun c => is_digit c = true) (lit (pretty_N_go x s)).
Proof.
  induction (N.lt_wf_0 x) as [x _ IH]; intros s Hs.
  destruct (decide (x = 0)%N) as [->|Hx].
  - by rewrite pretty_N_go_0.
  - rewrite pretty_N_go_step by lia. apply IH.
    + apply N.div_lt; lia.
    + cbn [lit]. constructor; [|done].
      unfold pretty_N_char. by repeat case_match.
Qed.

(** The decimal rendering of a number that is not negative has digits
    only. *)
Lemma number_to_string_digits z :
  (0 <= z)%Z -> Forall (fun c => is_digit c = true) (number_to_string z).
Proof.
  intros Hz. unfold number_to_string, pretty, pretty_Z.
  destruct z as [|p|p]; [| |lia].
  - repeat constructor.
  - unfold pretty, pretty_positive, pretty, pretty_N.
    case_decide; [repeat constructor|]. by apply pretty_N_go_digits.
Qed.

Lemma is_digit_word c : is_digit c = true -> is_word c = true.
Proof.
  unfold is_word, is_digit. intros ->. by rewrite !orb_true_r.
Qed.

(** X13: for a clock value that is not negative the contract name is a
    Solidity identifier: it starts with a letter and has letters,
    digits and [_] only. *)
Theorem contractName_identifier (timestamp : Z) :
  (0 <= timestamp)%Z ->
  head (AutoDeploy.contractName timestamp) = Some 67%N
  /\ Forall (fun c => is_word c = true) (AutoDeploy.contractName timestamp).
Proof.
  intros Hts. split; [done|].
  unfold AutoDeploy.contractName. apply Forall_app. split.
  - by repeat constructor.
  - eapply Forall_impl; [by apply number_to_string_digits|].
    apply is_digit_word.
Qed.

Lemma contractName_identifier_witness :
  (0 <= 1700000000000)%Z
  /\ Forall (fun c => is_word c = true) (lit "CustomMortgageLoan_1700000000000").
Proof.
  split; [lia|]. exact (proj2 (contractName_identifier 1700000000000 ltac:(lia))).
Defined.





(** X15: when the toolchain fails after the completion has come, the
    route answers 500 with a fixed message that holds nothing of the
    toolchain's output, and the two files it wrote stay where they
    are: nothing is cleaned up. *)
Theorem failed_deploy_keeps_files (ld : LoanRecord) (dirname : jsstring)
    (openai : endpoint) (timestamp : Z) (truffle : exec_result)
    (content : jsstring) (w : world) :
  openai (AutoDeploy.prompt ld) = inl content ->
  outcome truffle <> Exited 0 ->
  (AutoDeploy.handler ld dirname openai timestamp truffle w).1
  = inl (Response 500
           (JObj [(lit "error", JStr (lit "Failed to compile or deploy contract"))]))
  /\ files (AutoDeploy.handler ld dirname openai timestamp truffle w).2
       !! AutoDeploy.solFilePath dirname timestamp
     = Some (AutoDeploy.updatedCode timestamp (stripMarkdownFences (trim content)))
  /\ files (AutoDeploy.handler ld dirname openai timestamp truffle w).2
       !! AutoDeploy.migrationFilePath dirname timestamp
     = Some (AutoDeploy.migrationContent timestamp).
Proof.
  intros Ho Hout. rewrite (handler_files _ _ _ _ _ _ _ Ho).
  rewrite (handler_run _ _ _ _ _ _ _ Ho), (exec_callback_err _ _ Hout).
  split_and!; [done| |by rewrite lookup_insert_eq].
  rewrite lookup_insert_ne
    by (intros H; by apply eq_sym, sol_migration_paths_differ in H).
  by rewrite lookup_insert_eq.
Qed.

Lemma failed_deploy_keeps_files_witness :
  let openai : endpoint := fun _ => inl (lit "contract CustomMortgageLoan {}") in
  let w' := (AutoDeploy.handler loanData (lit "/srv/app") openai 1700000000000
               (ExecResult Killed [] []) (World ∅ ∅ [])).2 in
  openai (AutoDeploy.prompt loanData) = inl (lit "contract CustomMortgageLoan {}")
  /\ Killed <> Exited 0
  /\ files w' !! lit "/srv/app/contracts/CustomMortgageLoan_1700000000000.sol"
     = Some (lit "contract CustomMortgageLoan_1700000000000 {}").
Proof.
  intros openai w'. split_and!; [reflexivity|discriminate|].
  exact (proj1 (proj2 (failed_deploy_keeps_files loanData (lit "/srv/app") openai
                         1700000000000 (ExecResult Killed [] []) _ (World ∅ ∅ [])
                         eq_refl ltac:(discriminate)))).
Defined.

(** X16: the second replacement of [stripMarkdownFences] never finds
    anything to remove: the first one, whose language tag is optional,
    has already taken every run of three backticks.  The function is
    the first replacement followed by [trim]. *)
Theorem stripMarkdownFences_second_replace_idle (text : jsstring) :
  replace_all fence_bare_re 0 [] (replace_all fence_open_re 1 [] text)
  = replace_all fence_open_re 1 [] text
  /\ stripMarkdownFences text = trim (replace_all fence_open_re 1 [] text).
Proof.
  assert (replace_all fence_bare_re 0 [] (replace_all fence_open_re 1 [] text)
          = replace_all fence_open_re 1 [] text) as H.
  { unfold replace_all at 1.
    apply (replace_no_fence _ _ _ _ exec_fence_bare_None).
    apply replace_fence_open_no_fence. }
  split; [done|]. unfold stripMarkdownFences. by rewrite H.
Qed.
